(** * careless: variational merging of diffraction data

    A shallow embedding of the parts of [careless] that carry the
    statistical contract (Wilson prior, Laue likelihood, metadata
    standardisation), the cross-validation splitters of [DataManager] and
    the reflection-id tables of [ReciprocalASUCollection], followed by the
    properties proved about them.

    Conventions.
    - A Python call either returns a value or raises: [Py.result].
    - Tensors whose values enter closed-form densities are lists over [R]
      (the densities use [exp], [ln], [sqrt]); the metadata standardisation,
      whose contract is about non-finite values, is carried out in IEEE-754
      binary32 ([np.float32]) with the operations of [SpecFloat].
    - Integer arrays are lists over [Z]; an index follows numpy's rule
      (negative indices count from the end, anything else out of range
      raises [IndexError]). *)

From Stdlib Require Import ZArith QArith List Bool Lia Reals Lra Sorted FinFun.
From Stdlib Require Import Floats.SpecFloat.
From stdpp Require Import gmap strings.
Import ListNotations.

(* ================================================================== *)
(** * Part I: the embedding                                            *)
(* ================================================================== *)

(** ** Python results and exceptions *)

Module Py.

Inductive exn : Type :=
| NameError (name : string)          (* unbound name *)
| ValueError (ids : list Z)          (* the ids quoted by the message, if any *)
| IndexError
| KeyError
| TypeError
| AttributeError (attr : string)
| InvalidArgumentError.              (* tf.errors.InvalidArgumentError *)

Inductive result (A : Type) : Type :=
| Ok (a : A)
| Raise (e : exn).
Arguments Ok {A} a.
Arguments Raise {A} e.

Definition bind {A B : Type} (c : result A) (k : A -> result B) : result B :=
  match c with
  | Ok a => k a
  | Raise e => Raise e
  end.

Definition is_ok {A : Type} (c : result A) : bool :=
  match c with Ok _ => true | Raise _ => false end.

Definition is_ValueError {A : Type} (c : result A) : bool :=
  match c with Raise (ValueError _) => true | _ => false end.

Fixpoint mapM {A B : Type} (f : A -> result B) (l : list A) : result (list B) :=
  match l with
  | [] => Ok []
  | a :: l' =>
      bind (f a) (fun b => bind (mapM f l') (fun bs => Ok (b :: bs)))
  end.

End Py.

Notation "'let*' x ':=' c 'in' k" := (Py.bind c (fun x => k))
  (at level 10, x name, c at level 100, k at level 200).

(** ** models/priors/wilson.py *)

Module Wilson.
Import Py.
Local Open Scope R_scope.

Definition tensor := list R.

Fixpoint map2 (f : R -> R -> R) (a b : tensor) : tensor :=
  match a, b with
  | x :: a', y :: b' => f x y :: map2 f a' b'
  | _, _ => []
  end.

(** Elementwise binary operation on two 1-d tensors under the
    broadcasting rule: equal lengths pair up, a length-1 operand is
    stretched, and for any other pair of shapes TensorFlow raises
    InvalidArgumentError. *)
Definition broadcast2 (f : R -> R -> R) (a b : tensor) : result tensor :=
  if (length a =? length b)%nat then Ok (map2 f a b)
  else match a, b with
       | [x], _ => Ok (map (f x) b)
       | _, [y] => Ok (map (fun x => f x y) a)
       | _, _ => Raise InvalidArgumentError
       end.

(** [Centric()]: the half-normal of scale 1,
    P(E) = (2/pi)**0.5 * exp(-0.5*E**2). *)
Definition Centric_prob (E : R) : R := sqrt (2 / PI) * exp (- (E * E) / 2).
Definition Centric_log_prob (E : R) : R := ln (2 / PI) / 2 - (E * E) / 2.

(** [Acentric()]: Chi(2) rescaled by 2**-0.5, P(E) = 2*E*exp(-E**2). *)
Definition Acentric_prob (E : R) : R := 2 * E * exp (- (E * E)).
Definition Acentric_log_prob (E : R) : R := ln 2 + ln E - E * E.

Record WilsonPrior : Type := {
  centric : tensor;   (* 1. for centric reflections, 0. for acentric *)
  epsilon : tensor    (* multiplicity of each structure factor *)
}.

(** self.centric*p_centric(x) + (1. - self.centric)*p_acentric(x) *)
Definition mixture (pc pa : R -> R) (W : WilsonPrior) (x : tensor)
  : result tensor :=
  let* cen := broadcast2 Rmult (centric W) (map pc x) in
  let* acen := broadcast2 Rmult (map (fun c => 1 - c) (centric W)) (map pa x) in
  broadcast2 Rplus cen acen.

Definition log_prob (W : WilsonPrior) (x : tensor) : result tensor :=
  mixture Centric_log_prob Acentric_log_prob W x.

Definition prob (W : WilsonPrior) (x : tensor) : result tensor :=
  let* x' := broadcast2 Rdiv x (epsilon W) in
  mixture Centric_prob Acentric_prob W x'.

(** The evaluation the specification describes: only the acentric branch
    sees the amplitude rescaled by epsilon, in [prob] and in [log_prob]
    alike. *)
Definition mixture_spec (pc pa : R -> R) (W : WilsonPrior) (x : tensor)
  : result tensor :=
  let* x' := broadcast2 Rdiv x (epsilon W) in
  let* cen := broadcast2 Rmult (centric W) (map pc x) in
  let* acen := broadcast2 Rmult (map (fun c => 1 - c) (centric W)) (map pa x') in
  broadcast2 Rplus cen acen.

Definition prob_spec : WilsonPrior -> tensor -> result tensor :=
  mixture_spec Centric_prob Acentric_prob.
Definition log_prob_spec : WilsonPrior -> tensor -> result tensor :=
  mixture_spec Centric_log_prob Acentric_log_prob.

(** [Acentric().mean] and [Acentric().stddev], the two lambdas that
    [Acentric] installs on the distribution it returns. *)
Definition Acentric_mean : R := 1 / 2 * sqrt PI.
Definition Acentric_stddev : R := sqrt (1 - 1 / 4 * PI).

Section Moments.

(** What [tfd.HalfNormal(scale=1.)] reports as its mean and as its standard
    deviation. *)
Variable Centric_mean : R.
Variable Centric_stddev : R.

(** self.centric*self.p_centric.mean() + (1. - self.centric)*self.p_acentric.mean() *)
Definition mean (W : WilsonPrior) : tensor :=
  map (fun c => c * Centric_mean + (1 - c) * Acentric_mean) (centric W).

Definition stddev (W : WilsonPrior) : tensor :=
  map (fun c => c * Centric_stddev + (1 - c) * Acentric_stddev) (centric W).

End Moments.

End Wilson.

(** ** models/likelihoods/laue.py *)

Module Laue.
Import Py.
Local Open Scope R_scope.

Definition matrix := list (list R).      (* a rank-2 float tensor, by rows *)

(** Python values that reach the Laue likelihood. *)
Inductive pyval : Type :=
| PyNone
| PyInt (z : Z)
| PyTensor (t : matrix)
| PyObject (name : string).              (* a module, class or function *)

Definition namespace := gmap string pyval.

(** The names bound at module level in laue.py: its imports and classes. *)
Definition laue_globals : namespace :=
  list_to_map
    (map (fun n => (n, PyObject n))
       ["Likelihood"; "PerGroupModel"; "tfd"; "tfb"; "tfp"; "tf"; "np";
        "LaueBase"; "NormalLikelihood"; "LaplaceLikelihood";
        "StudentTLikelihood"]%string).

(** Reading a name that is neither a parameter nor assigned in the function
    body: module globals first, then the builtins. *)
Definition load_global (globals builtins : namespace) (name : string)
  : result pyval :=
  match globals !! name with
  | Some v => Ok v
  | None =>
      match builtins !! name with
      | Some v => Ok v
      | None => Raise (NameError name)
      end
  end.

(** [v.shape[0]] *)
Definition shape0 (v : pyval) : result Z :=
  match v with
  | PyTensor t => Ok (Z.of_nat (length t))
  | _ => Raise (AttributeError "shape")
  end.

Record SparseTensor : Type := {
  indices : list (Z * Z);     (* (row, column) of each stored entry *)
  values : list R;
  dense_shape : Z * Z
}.

(** tf.range(n, dtype='int64') *)
Definition tf_range (n : nat) : list Z := map Z.of_nat (seq 0 n).

(** Lines 14-17 of [get_sparse_conv_tensor]: one stored 1 per harmonic, at
    (harmonic_id[i], i), in a tensor of shape (nobs, npred). *)
Definition conv_tensor (harmonic_id : list Z) (nobs : Z) : SparseTensor :=
  let npred := length harmonic_id in
  {| indices := combine harmonic_id (tf_range npred);
     values := repeat 1 npred;
     dense_shape := (nobs, Z.of_nat npred) |}.

(** [LaueBase.get_sparse_conv_tensor(harmonic_id, nobs)].  The first
    statement rebinds the parameter [nobs] from [intensities], a name the
    function neither receives nor assigns. *)
Definition get_sparse_conv_tensor (globals builtins : namespace)
    (harmonic_id : list Z) (nobs : pyval) : result SparseTensor :=
  let* intensities := load_global globals builtins "intensities" in
  let* nobs := shape0 intensities in
  Ok (conv_tensor harmonic_id nobs).

(** A location-scale family: [dist(loc, scale)] of a subclass. *)
Record Distribution : Type := {
  loc : list R;
  scale : list R;
  log_density : R -> R -> R -> R          (* loc, scale, value *)
}.

(** [distribution.log_prob(value)]: the value must be a tensor; it has one
    row per observation, evaluated against that observation's loc and
    scale. *)
Fixpoint rows_log_prob (f : R -> R -> R -> R) (ls ss : list R) (t : matrix)
  : matrix :=
  match ls, ss, t with
  | l :: ls', s :: ss', row :: t' =>
      map (f l s) row :: rows_log_prob f ls' ss' t'
  | _, _, _ => []
  end.

Definition dist_log_prob (d : Distribution) (v : pyval) : result matrix :=
  match v with
  | PyTensor t => Ok (rows_log_prob (log_density d) (loc d) (scale d) t)
  | _ => Raise (ValueError [])
  end.

Definition in_shape (shape : Z * Z) (ix : Z * Z) : bool :=
  ((0 <=? fst ix) && (fst ix <? fst shape)
   && (0 <=? snd ix) && (snd ix <? snd shape))%Z.

(** One entry of the product: row [r] of the sparse tensor against one
    sample (one row of [value], a column of its adjoint). *)
Definition sparse_row_dot (sp : SparseTensor) (r : Z) (sample : list R) : R :=
  fold_right Rplus 0
    (map (fun e : (Z * Z) * R =>
            if (fst (fst e) =? r)%Z
            then snd e * nth (Z.to_nat (snd (fst e))) sample 0
            else 0)
         (combine (indices sp) (values sp))).

(** tf.sparse.sparse_dense_matmul(sp, value, adjoint_b=True): [value] is
    (samples x npred); the product is (nobs x samples). *)
Definition sparse_dense_matmul (sp : SparseTensor) (value : matrix)
  : result matrix :=
  if forallb (in_shape (dense_shape sp)) (indices sp)
     && forallb (fun row => (Z.of_nat (length row) =? snd (dense_shape sp))%Z)
                value
  then Ok (map (fun r => map (sparse_row_dot sp r) value)
               (tf_range (Z.to_nat (fst (dense_shape sp)))))
  else Raise InvalidArgumentError.

Record ConvolvedLikelihood : Type := {
  sparse_conv_tensor : SparseTensor;
  distribution : Distribution
}.

(** [convolve]: the body is the bare expression statement
    [tf.sparse.sparse_dense_matmul(...)]; there is no [return], so the
    product is dropped and the call evaluates to [None]. *)
Definition convolve (L : ConvolvedLikelihood) (value : matrix)
  : result pyval :=
  let* product := sparse_dense_matmul (sparse_conv_tensor L) value in
  Ok PyNone.

Definition log_prob (L : ConvolvedLikelihood) (value : matrix)
  : result matrix :=
  let* aggregate := convolve L value in
  dist_log_prob (distribution L) aggregate.

(** [LaueBase.call]: the inputs are unpacked by the accessors of the base
    class; [nobs] is read without being bound, and the distribution is
    built by [self._dist]. *)
Definition call (globals builtins : namespace)
    (_dist : list R -> list R -> result Distribution)
    (harmonic_id : list Z) (intensities uncertainties : list R)
  : result ConvolvedLikelihood :=
  let* nobs := load_global globals builtins "nobs" in
  let* sparse_conv_tensor := get_sparse_conv_tensor globals builtins
                               harmonic_id nobs in
  let* likelihood := _dist intensities uncertainties in
  Ok {| sparse_conv_tensor := sparse_conv_tensor;
        distribution := likelihood |}.

(** The aggregate the specification asks for: the sum of the predictions of
    the harmonics assigned to observation [r]. *)
Definition harmonic_sum (harmonic_id : list Z) (r : Z) (sample : list R) : R :=
  fold_right Rplus 0
    (map snd (List.filter (fun e : Z * R => (fst e =? r)%Z)
                     (combine harmonic_id sample))).

End Laue.

(** ** merge/merge.py: metadata standardisation *)

Module Merge.
Import Py.

(** [np.float32]: IEEE-754 binary32, round to nearest even. *)
Definition float32 := spec_float.
Definition f32_add : float32 -> float32 -> float32 := SFadd 24 128.
Definition f32_sub : float32 -> float32 -> float32 := SFsub 24 128.
Definition f32_mul : float32 -> float32 -> float32 := SFmul 24 128.
Definition f32_div : float32 -> float32 -> float32 := SFdiv 24 128.
Definition f32_sqrt : float32 -> float32 := SFsqrt 24 128.
Definition f32_of_int (n : Z) : float32 := binary_normalize 24 128 n 0 false.

Definition f32_one : float32 := Eval cbv in f32_of_int 1.    (* 1.0 *)



Definition array2 := list (list float32).   (* shape (n, m), by rows *)


(** [np.add.reduce(a, axis=0)] of an (n, m) array: the rows are added one
    after the other; with no row at all the sums are zero. *)
Definition sum0 (m : nat) (a : array2) : list float32 :=
  match a with
  | [] => repeat (S754_zero false) m
  | r :: rs => fold_left (zip_with f32_add) rs r
  end.

(** [a.mean(0)]: the column sums divided by the row count. *)
Definition mean0 (m : nat) (a : array2) : list float32 :=
  map (fun s => f32_div s (f32_of_int (Z.of_nat (length a)))) (sum0 m a).

(** [a.std(0)]: the square root of the mean of the squared deviations. *)
Definition std0 (m : nat) (a : array2) : list float32 :=
  let x := map (fun r => zip_with f32_sub r (mean0 m a)) a in
  let x := map (map (fun v => f32_mul v v)) x in
  map f32_sqrt (mean0 m x).

(** (metadata - metadata.mean(0))/metadata.std(0) *)
Definition standardize (m : nat) (metadata : array2) : array2 :=
  let mu := mean0 m metadata in
  let sd := std0 m metadata in
  map (fun r => zip_with f32_div (zip_with f32_sub r mu) sd) metadata.


(** *** Column bookkeeping of [BaseMerger] *)

(** [ds.dtypes]: the columns of a DataSet in order, each with the letter of
    its MTZ dtype. *)
Definition dtypes := list (string * string).

(** [ds.dtypes[idx].keys()] for a boolean [idx] *)
Definition keys_where (idx : list bool) (ds : dtypes) : list string :=
  map fst (map snd (List.filter fst (combine idx ds))).

(** [get_first_key_of_type(ds, typestring)]: the comparison is against the
    literal 'J'; [typestring] only appears in the message of the error. *)
Definition get_first_key_of_type (ds : dtypes) (typestring : string)
  : result string :=
  let idx := map (fun kv : string * string => String.eqb (snd kv) "J") ds in
  if (length (List.filter (fun b : bool => b) idx) <? 1)%nat
  then Raise KeyError
  else match keys_where idx ds with
       | k :: _ => Ok k
       | [] => Raise IndexError
       end.

(** The test [ds.dtypes=='J'] on one column. *)
Definition is_J (kv : string * string) : bool := String.eqb (snd kv) "J".

Record MergerKeys : Type := {
  intensity_key : string;
  sigma_intensity_key : string;
  metadata_keys : list string
}.

(** [name in self.data] *)
Definition has_column (ds : dtypes) (name : string) : bool :=
  existsb (fun kv : string * string => String.eqb (fst kv) name) ds.

(** [list(ds.dtypes[ds.dtypes == t].keys())] *)
Definition keys_of_dtype (ds : dtypes) (t : string) : list string :=
  keys_where (map (fun kv : string * string => String.eqb (snd kv) t) ds) ds.

(** [self.data.file_id.max() > 0]; the maximum of an empty column is NaN,
    which is not greater than 0. *)
Definition max_positive (column : list Z) : bool :=
  match column with
  | [] => false
  | z :: column' => (0 <? fold_left Z.max column' z)%Z
  end.

(** The last part of [BaseMerger.__init__]: the default intensity,
    uncertainty and metadata keys, from the columns of [self.data] and its
    [file_id] column ([None] when the dataset has none). *)
Definition guess_keys (ds : dtypes) (file_id : option (list Z))
  : result MergerKeys :=
  let* intensity_key := get_first_key_of_type ds "J" in
  let* sigma_intensity_key :=
    if has_column ds (String.append "Sig" intensity_key)
    then Ok (String.append "Sig" intensity_key)
    else if has_column ds (String.append "SIG" intensity_key)
    then Ok (String.append "SIG" intensity_key)
    else get_first_key_of_type ds "Q" in
  let metadata_keys := keys_of_dtype ds "R" in
  let metadata_keys := metadata_keys ++ keys_of_dtype ds "B" in
  let* file_id :=
    match file_id with
    | Some column => Ok column
    | None => Raise (AttributeError "file_id")
    end in
  let metadata_keys :=
    if max_positive file_id then metadata_keys ++ ["file_id"%string]
    else metadata_keys in
  Ok {| intensity_key := intensity_key;
        sigma_intensity_key := sigma_intensity_key;
        metadata_keys := metadata_keys ++ ["dHKL"%string] |}.

(** *** [BaseMerger.set_merging_spacegroup] *)

(** The arguments a caller can pass. *)
Inductive pyarg : Type :=
| ArgStr (s : string)
| ArgInt (z : Z)
| ArgSpaceGroup (name : string)       (* a gemmi.SpaceGroup *)
| ArgMerger                           (* a BaseMerger instance *)
| ArgOther.

(** The names bound at module level in merge.py. *)
Definition merge_globals : Laue.namespace :=
  list_to_map
    (map (fun n => (n, Laue.PyObject n))
       ["gemmi"; "np"; "tf"; "pd"; "rs"; "get_first_key_of_type";
        "BaseMerger"; "HarmonicDeconvolutionMixin"; "PolyMerger";
        "MonoMerger"]%string).

(** The body, once [sg] is bound.  In [self.spacegroup = ...] the right-hand
    side is evaluated first, then [self] is read: the function has no
    parameter of that name.  [SpaceGroup] stands for the constructor
    [gemmi.SpaceGroup]. *)
Definition set_merging_spacegroup_body (builtins : Laue.namespace)
    (SpaceGroup : pyarg -> result pyarg) (sg : pyarg) : result unit :=
  match sg with
  | ArgStr _ | ArgInt _ =>
      let* value := SpaceGroup sg in
      let* self := Laue.load_global merge_globals builtins "self" in
      Ok tt
  | ArgSpaceGroup _ =>
      let* self := Laue.load_global merge_globals builtins "self" in
      Ok tt
  | ArgMerger | ArgOther => Raise (ValueError [])
  end.

(** [def set_merging_spacegroup(sg)]: exactly one positional argument. *)
Definition set_merging_spacegroup (builtins : Laue.namespace)
    (SpaceGroup : pyarg -> result pyarg) (positional : list pyarg)
  : result unit :=
  match positional with
  | [sg] => set_merging_spacegroup_body builtins SpaceGroup sg
  | _ => Raise TypeError
  end.

(** A call on an instance, [merger.set_merging_spacegroup(args...)]: the
    instance comes first. *)
Definition call_set_merging_spacegroup (builtins : Laue.namespace)
    (SpaceGroup : pyarg -> result pyarg) (args : list pyarg) : result unit :=
  set_merging_spacegroup builtins SpaceGroup (ArgMerger :: args).

End Merge.

(** ** io/manager.py: the cross-validation splitters *)

Module Manager.
Import Py.
Local Open Scope Z_scope.

(** Array elements: integer ids, or float32 measurements and metadata. *)
Inductive scalar : Type :=
| Int (z : Z)
| Float (x : Merge.float32).

Definition ndarray := list (list scalar).     (* rank 2, by rows *)

(** [a[i]] for an integer [i]: negative indices count from the end. *)
Definition np_index {A : Type} (a : list A) (i : Z) : result A :=
  let n := Z.of_nat (length a) in
  let j := if i <? 0 then i + n else i in
  if (0 <=? j) && (j <? n)
  then match nth_error a (Z.to_nat j) with
       | Some x => Ok x
       | None => Raise IndexError
       end
  else Raise IndexError.

(** [a[ix]] for an integer array [ix]. *)
Definition take {A : Type} (a : list A) (ix : list Z) : result (list A) :=
  mapM (np_index a) ix.

(** The rows a boolean mask keeps. *)
Definition select {A : Type} (mask : list bool) (a : list A) : list A :=
  map snd (List.filter fst (combine mask a)).

(** [a[mask]] for a boolean mask: a mask without entries selects nothing,
    whatever the array; any other mask must be as long as the array. *)
Definition bool_index {A : Type} (mask : list bool) (a : list A)
  : result (list A) :=
  if ((length mask =? 0) || (length mask =? length a))%nat
  then Ok (select mask a)
  else Raise IndexError.

(** The integers of an id column, flattened. *)
Definition as_int (c : scalar) : result Z :=
  match c with
  | Int z => Ok z
  | Float _ => Raise IndexError
  end.

Definition int_column (a : ndarray) : result (list Z) :=
  mapM as_int (concat a).

(** [np.unique]: the distinct values in increasing order. *)
Fixpoint insert_unique (z : Z) (l : list Z) : list Z :=
  match l with
  | [] => [z]
  | y :: l' =>
      if z <? y then z :: l
      else if z =? y then l
      else y :: insert_unique z l'
  end.

Definition np_unique (l : list Z) : list Z := fold_right insert_unique [] l.

(** ... and, with [return_inverse=True], the position of each value in
    that array. *)
Fixpoint index_of (uni : list Z) (z : Z) : nat :=
  match uni with
  | [] => 0
  | y :: uni' => if z =? y then 0 else S (index_of uni' z)
  end.

Definition np_unique_inverse (l : list Z) : list Z * list nat :=
  let uni := np_unique l in (uni, map (index_of uni) l).

(** [np.intersect1d]: the sorted values common to both arrays. *)
Definition intersect1d (a b : list Z) : list Z :=
  List.filter (fun z => existsb (Z.eqb z) (np_unique b)) (np_unique a).

(** [a.max()]; an empty array has no maximum. *)
Definition np_max (a : list Z) : result Z :=
  match a with
  | [] => Raise (ValueError [])
  | z :: a' => Ok (fold_left Z.max a' z)
  end.

(** [np.random.random(n) <= fraction], the i-th draw being [rng i]. *)
Definition random_le (rng : nat -> Q) (n : Z) (fraction : Q)
  : result (list bool) :=
  if n <? 0 then Raise (ValueError [])
  else Ok (map (fun i => Qle_bool (rng i) fraction) (seq 0 (Z.to_nat n))).

(** [np.pad(v, [[0, k], [0, 0]], constant_values=1.)] of a float array. *)
Definition width (v : ndarray) : nat :=
  match v with
  | [] => 0%nat
  | r :: _ => length r
  end.

Definition ones_row (v : ndarray) : list scalar :=
  repeat (Float Merge.f32_one) (width v).

Definition pad_ones (v : ndarray) (k : Z) : result ndarray :=
  if k <? 0 then Raise (ValueError [])
  else Ok (v ++ repeat (ones_row v) (Z.to_nat k)).

(** [test_idx[0] = b] *)
Definition set_first (mask : list bool) (b : bool) : result (list bool) :=
  match mask with
  | [] => Raise IndexError
  | _ :: mask' => Ok (b :: mask')
  end.

Record DataManager : Type := {
  inputs : list ndarray
}.

Section BaseModel.

(** What [careless.models.base.BaseModel] supplies: the table
    [input_index] from input name to position in the inputs tuple, and the
    test that tells Laue inputs from monochromatic ones. *)
Variable input_index : list (string * nat).
Variable is_laue : list ndarray -> bool.

Definition get_name_by_index (i : nat) : option string :=
  option_map fst (List.find (fun kv => (snd kv =? i)%nat) input_index).

Definition get_input_by_name (inputs : list ndarray) (name : string)
  : result ndarray :=
  match List.find (fun kv => String.eqb (fst kv) name) input_index with
  | None => Raise KeyError
  | Some kv =>
      match nth_error inputs (snd kv) with
      | Some v => Ok v
      | None => Raise IndexError
      end
  end.

Definition get_harmonic_id (inputs : list ndarray) : result (list Z) :=
  let* a := get_input_by_name inputs "harmonic_id" in int_column a.

Definition get_image_id (inputs : list ndarray) : result (list Z) :=
  let* a := get_input_by_name inputs "image_id" in int_column a.

Definition split_mono_data_by_mask (self : DataManager) (test_idx : list bool)
  : result (list ndarray * list ndarray) :=
  let* test := mapM (bool_index test_idx) (inputs self) in
  let* train := mapM (bool_index (map negb test_idx)) (inputs self) in
  Ok (train, test).

(** The body of the loop of the inner function [split] of
    [split_laue_data_by_mask], for entry [i] of the inputs. *)
Definition split_entry (uni : list Z) (inv : list nat) (idx : list bool)
    (i : nat) (v : ndarray) : result ndarray :=
  let name := get_name_by_index i in
  if (bool_decide (name = Some "intensities"%string)
      || bool_decide (name = Some "uncertainties"%string))%bool
  then
    let* v := take v uni in
    pad_ones v (Z.of_nat (length inv) - Z.of_nat (length v))
  else if bool_decide (name = Some "harmonic_id"%string)
  then Ok (map (fun k => [Int (Z.of_nat k)]) inv)
  else bool_index idx v.

Fixpoint enumerate_from {A : Type} (i : nat) (l : list A) : list (nat * A) :=
  match l with
  | [] => []
  | x :: l' => (i, x) :: enumerate_from (S i) l'
  end.

(** The inner function [split(inputs, idx)]. *)
Definition split (inputs : list ndarray) (idx : list bool)
  : result (list ndarray) :=
  let* harmonic_id := get_harmonic_id inputs in
  let* selected := bool_index idx harmonic_id in
  let '(uni, inv) := np_unique_inverse selected in
  mapM (fun iv => split_entry uni inv idx (fst iv) (snd iv))
       (enumerate_from 0 inputs).

Definition split_laue_data_by_mask (self : DataManager) (test_idx : list bool)
  : result (list ndarray * list ndarray) :=
  let* harmonic_id := get_harmonic_id (inputs self) in
  let* in_test := bool_index test_idx harmonic_id in
  let* in_train := bool_index (map negb test_idx) harmonic_id in
  let isect := intersect1d in_test in_train in
  if (0 <? length isect)%nat then Raise (ValueError isect)
  else
    let* train := split (inputs self) (map negb test_idx) in
    let* test := split (inputs self) test_idx in
    Ok (train, test).

(** The mask of [split_data_by_refl] for Laue inputs: one draw per
    harmonic id, gathered by the id column. *)
Definition refl_test_idx (rng : nat -> Q) (test_fraction : Q)
    (harmonic_id : list Z) : result (list bool) :=
  let* top := np_max harmonic_id in
  let* by_id := random_le rng (top + 1) test_fraction in
  take by_id harmonic_id.

Definition split_data_by_refl (self : DataManager) (rng : nat -> Q)
    (test_fraction : Q) : result (list ndarray * list ndarray) :=
  if is_laue (inputs self) then
    let* harmonic_id := get_harmonic_id (inputs self) in
    let* test_idx := refl_test_idx rng test_fraction harmonic_id in
    split_laue_data_by_mask self test_idx
  else
    let* first := np_index (inputs self) 0 in
    let* test_idx := random_le rng (Z.of_nat (length first)) test_fraction in
    split_mono_data_by_mask self test_idx.

(** The mask of [split_data_by_image]: one draw per image id, the first
    draw overwritten when all draws agree, gathered by the image column. *)
Definition image_test_idx (rng : nat -> Q) (test_fraction : Q)
    (image_id : list Z) : result (list bool) :=
  let* top := np_max image_id in
  let* test_idx := random_le rng (top + 1) test_fraction in
  let* test_idx :=
    if negb (existsb (fun b => b) test_idx) then set_first test_idx true
    else if negb (existsb negb test_idx) then set_first test_idx false
    else Ok test_idx in
  take test_idx image_id.

Definition split_data_by_image (self : DataManager) (rng : nat -> Q)
    (test_fraction : Q) : result (list ndarray * list ndarray) :=
  let* image_id := get_image_id (inputs self) in
  let* test_idx := image_test_idx rng test_fraction image_id in
  if is_laue (inputs self) then split_laue_data_by_mask self test_idx
  else split_mono_data_by_mask self test_idx.

(** None of the splitters assigns to an attribute of [self] or writes into
    one of its arrays: a call leaves the manager as it found it. *)
Definition call_method {A : Type} (method : DataManager -> result A)
    (self : DataManager) : result A * DataManager :=
  (method self, self).

(** *** What a partition must look like

    [sel] are the harmonic ids of the rows the mask [idx] keeps and [uni]
    their distinct values in increasing order. *)

(** Well-formed Laue inputs: every entry has one row per harmonic, and the
    harmonic ids are row numbers of the observations. *)
Definition wf_laue (inputs : list ndarray) (harmonic_id : list Z) : bool :=
  forallb (fun v : ndarray => (length v =? length harmonic_id)%nat) inputs
  && forallb (fun h => (0 <=? h) && (h <? Z.of_nat (length harmonic_id)))
             harmonic_id.

(** The mask keeps every harmonic group whole. *)
Definition keeps_groups_whole (idx : list bool) (harmonic_id : list Z) : Prop :=
  forall h, ~ (In h (select idx harmonic_id)
               /\ In h (select (map negb idx) harmonic_id)).

(** The new ids are 0, 1, ..., in the order of the old ones; equal new ids
    mean equal old ids. *)
Definition relabel_spec (sel : list Z) (new_id : Z -> nat) : Prop :=
  (forall k, (exists h, In h sel /\ new_id h = k)
             <-> (k < length (np_unique sel))%nat)
  /\ (forall h h', In h sel -> In h' sel ->
        (h < h' <-> (new_id h < new_id h')%nat)
        /\ (h = h' <-> new_id h = new_id h')).

Definition entry_spec (idx : list bool) (sel : list Z) (i : nat)
    (v v' : ndarray) : Prop :=
  let uni := np_unique sel in
  let name := get_name_by_index i in
  if (bool_decide (name = Some "intensities"%string)
      || bool_decide (name = Some "uncertainties"%string))%bool
  then
    (* one row per retained group, then rows of 1.0 *)
    length v' = length sel
    /\ (forall k h, nth_error uni k = Some h ->
          exists row, nth_error v' k = Some row /\ np_index v h = Ok row)
    /\ (forall k row, (length uni <= k)%nat -> nth_error v' k = Some row ->
          Forall (fun c => c = Float Merge.f32_one) row)
  else if bool_decide (name = Some "harmonic_id"%string)
  then v' = map (fun h => [Int (Z.of_nat (index_of uni h))]) sel
  else v' = select idx v.

Definition partition_spec (inputs : list ndarray) (harmonic_id : list Z)
    (idx : list bool) (part : list ndarray) : Prop :=
  let sel := select idx harmonic_id in
  length part = length inputs
  /\ relabel_spec sel (index_of (np_unique sel))
  /\ forall i v, nth_error inputs i = Some v ->
       exists v', nth_error part i = Some v' /\ entry_spec idx sel i v v'.

(** *** The partitions, entry by entry

    The same description read off the table [input_index] and the arrays
    themselves: which entry is which is decided by the table, the retained
    groups are given as a strictly increasing list, and rows are named by
    their position. *)

(** The rows a mask keeps, read row by row. *)
Fixpoint kept {A : Type} (mask : list bool) (a : list A) : list A :=
  match mask, a with
  | b :: mask', x :: a' => if b then x :: kept mask' a' else kept mask' a'
  | _, _ => []
  end.

(** A two-dimensional array has rows of one length. *)
Definition rectangular (v : ndarray) : bool :=
  match v with
  | [] => true
  | r :: v' => forallb (fun r' : list scalar => (length r' =? length r)%nat) v'
  end.

(** [groups] are the harmonic ids found on the rows the mask keeps, each
    once, in increasing order. *)
Definition retained_groups (idx : list bool) (harmonic_id : list Z)
    (groups : list Z) : Prop :=
  StronglySorted Z.lt groups
  /\ forall h, In h groups <->
       exists k, nth_error idx k = Some true /\ nth_error harmonic_id k = Some h.

(** [v'] has [n] rows: row k is row [h] of [v] for the k-th retained group
    [h], and each further row holds 1.0 in every column of [v]. *)
Definition reduced_and_padded (groups : list Z) (n : nat) (v v' : ndarray)
  : Prop :=
  length v' = n
  /\ (forall k h, nth_error groups k = Some h ->
        0 <= h
        /\ exists row, nth_error v (Z.to_nat h) = Some row
                       /\ nth_error v' k = Some row)
  /\ (forall k, (length groups <= k < n)%nat ->
        exists row, nth_error v' k = Some row
          /\ List.Forall (fun c => c = Float Merge.f32_one) row
          /\ forall r, In r v -> length row = length r).

(** [v'] is a column of new ids, one per retained row: the new id of a row
    is the rank of its old id among the retained groups; the new ids are
    exactly 0, ..., (number of groups) - 1, ordered as the old ones, and
    equal only for rows with equal old ids. *)
Definition relabelled (groups : list Z) (sel : list Z) (v' : ndarray) : Prop :=
  exists new_ids : list nat,
    v' = map (fun k => [Int (Z.of_nat k)]) new_ids
    /\ length new_ids = length sel
    /\ (forall j h, nth_error sel j = Some h ->
          exists k, nth_error new_ids j = Some k /\ nth_error groups k = Some h)
    /\ (forall k, In k new_ids <-> (k < length groups)%nat)
    /\ (forall j j' h h' k k',
          nth_error sel j = Some h -> nth_error sel j' = Some h' ->
          nth_error new_ids j = Some k -> nth_error new_ids j' = Some k' ->
          (h < h' <-> (k < k')%nat) /\ (h = h' <-> k = k')).

(** Entry [i] of a partition, by the name the table gives to position [i]:
    intensities and uncertainties are reduced and padded, harmonic_id is
    relabelled, and an entry with any other name, or with none, is sliced
    by the mask. *)
Definition exact_entry (groups sel : list Z) (idx : list bool) (i : nat)
    (v v' : ndarray) : Prop :=
  (In ("intensities"%string, i) input_index
   \/ In ("uncertainties"%string, i) input_index ->
   reduced_and_padded groups (length sel) v v')
  /\ (In ("harmonic_id"%string, i) input_index -> relabelled groups sel v')
  /\ ((forall name, In (name, i) input_index ->
         name <> "intensities"%string /\ name <> "uncertainties"%string
         /\ name <> "harmonic_id"%string) ->
      v' = kept idx v).

Definition exact_partition (inputs : list ndarray) (harmonic_id : list Z)
    (idx : list bool) (part : list ndarray) : Prop :=
  length part = length inputs
  /\ exists groups,
       retained_groups idx harmonic_id groups
       /\ forall i v, nth_error inputs i = Some v ->
            exists v', nth_error part i = Some v'
              /\ exact_entry groups (kept idx harmonic_id) idx i v v'.

End BaseModel.

(** The layout used by the examples: mono inputs have the first five
    entries, Laue inputs all seven. *)
Definition example_input_index : list (string * nat) :=
  [("refl_id", 0); ("image_id", 1); ("metadata", 2); ("intensities", 3);
   ("uncertainties", 4); ("wavelength", 5); ("harmonic_id", 6)]%string%nat.

Definition example_is_laue (inputs : list ndarray) : bool :=
  (5 <? length inputs)%nat.

Definition int_col (l : list Z) : ndarray := map (fun z => [Int z]) l.
Definition float_col (l : list Z) : ndarray :=
  map (fun z => [Float (Merge.f32_of_int z)]) l.

(** Three observations on two images; the first and the last have two
    harmonics each.  Rows 3 and 4 of the intensities are padding. *)
Definition example_laue : DataManager :=
  {| inputs := [int_col [10; 11; 12; 13; 14];       (* refl_id *)
                int_col [0; 0; 0; 1; 1];            (* image_id *)
                float_col [1; 2; 3; 4; 5];          (* metadata *)
                float_col [100; 200; 300; 1; 1];    (* intensities *)
                float_col [7; 8; 9; 1; 1];          (* uncertainties *)
                float_col [1; 1; 1; 1; 1];          (* wavelength *)
                int_col [0; 0; 1; 2; 2]] |}.        (* harmonic_id *)

(** Two observations, both on image 0. *)
Definition example_one_image : DataManager :=
  {| inputs := [int_col [1; 2]; int_col [0; 0]; float_col [1; 2];
                float_col [3; 4]; float_col [5; 6]] |}.

End Manager.

(** ** io/asu.py: reflection-id tables *)

Module ASU.
Import Py.
Local Open Scope Z_scope.

Definition miller := (Z * Z * Z)%type.            (* H, K, L *)

(** A row of a lookup table.  [asu_id] is the column the collection adds;
    a single [ReciprocalASU] leaves it at 0. *)
Record Row : Type := {
  asu_id : Z;
  hkl : miller;
  id : Z;
  CENTRIC : bool;
  EPSILON : Z
}.

(** A [ReciprocalASU] after [__init__]: [Hall] is what
    [rs.utils.generate_reciprocal_asu] returned for the cell, space group
    and cutoff, and the two labellings are those of [label_centrics] and
    [compute_multiplicity] for that space group. *)
Record ReciprocalASU : Type := {
  Hall : list miller;
  label_centrics : miller -> bool;
  compute_multiplicity : miller -> Z
}.

Fixpoint enumerate_from {A : Type} (i : nat) (l : list A) : list (nat * A) :=
  match l with
  | [] => []
  | x :: l' => (i, x) :: enumerate_from (S i) l'
  end.

(** [asu.lookup_table]: 'id' is np.arange(len(h)). *)
Definition lookup_table (asu : ReciprocalASU) : list Row :=
  map (fun ih : nat * miller =>
         {| asu_id := 0; hkl := snd ih; id := Z.of_nat (fst ih);
            CENTRIC := label_centrics asu (snd ih);
            EPSILON := compute_multiplicity asu (snd ih) |})
      (enumerate_from 0 (Hall asu)).

Definition set_asu_id (a : Z) (r : Row) : Row :=
  {| asu_id := a; hkl := hkl r; id := id r;
     CENTRIC := CENTRIC r; EPSILON := EPSILON r |}.

Definition shift_id (d : Z) (r : Row) : Row :=
  {| asu_id := asu_id r; hkl := hkl r; id := id r + d;
     CENTRIC := CENTRIC r; EPSILON := EPSILON r |}.

(** One turn of the loop of [ReciprocalASUCollection.__init__]. *)
Definition add_asu (table : option (list Row)) (i : nat) (asu : ReciprocalASU)
  : option (list Row) :=
  let tab := map (set_asu_id (Z.of_nat i)) (lookup_table asu) in
  match table with
  | Some t => Some (t ++ map (shift_id (Z.of_nat (length t))) tab)
  | None => Some tab
  end.

Fixpoint add_asus (table : option (list Row)) (i : nat)
    (asus : list ReciprocalASU) : option (list Row) :=
  match asus with
  | [] => table
  | asu :: rest => add_asus (add_asu table i asu) (S i) rest
  end.

Record ReciprocalASUCollection : Type := {
  reciprocal_asus : list ReciprocalASU;
  collection_table : list Row
      (* [lookup_table]; [asu_and_miller_lookup_table] is this table indexed
         by (asu_id, H, K, L), [refl_id_lookup_table] the same indexed by id *)
}.

(** [ReciprocalASUCollection(reciprocal_asus)]; with no ASU the table is
    still [None] when [set_index] is called on it. *)
Definition init (reciprocal_asus : list ReciprocalASU)
  : result ReciprocalASUCollection :=
  match add_asus None 0 reciprocal_asus with
  | None => Raise (AttributeError "set_index")
  | Some t => Ok {| reciprocal_asus := reciprocal_asus; collection_table := t |}
  end.

(** [table.set_index(index).loc[labels]]: for each label the rows that
    carry it, in table order; a label no row carries raises KeyError. *)
Definition loc {K : Type} `{EqDecision K} (index : Row -> K)
    (table : list Row) (labels : list K) : result (list Row) :=
  let* found :=
    mapM (fun l =>
            match List.filter (fun r => bool_decide (index r = l)) table with
            | [] => Raise KeyError
            | rows => Ok rows
            end) labels in
  Ok (concat found).

Definition composite_key (r : Row) : Z * miller := (asu_id r, hkl r).

Definition to_asu_id_and_miller_index (C : ReciprocalASUCollection)
    (refl_id : list Z) : result (list Z * list miller) :=
  let* data := loc id (collection_table C) refl_id in
  Ok (map asu_id data, map hkl data).

Definition to_refl_id (C : ReciprocalASUCollection)
    (asu_id : list Z) (H : list miller) : result (list Z) :=
  if (length asu_id =? length H)%nat then
    let* data := loc composite_key (collection_table C) (combine asu_id H) in
    Ok (map id data)
  else Raise (ValueError []).

(** The composite keys of a list of ASUs, ASU by ASU, numbered from [i]. *)
Fixpoint keys_of (i : nat) (asus : list ReciprocalASU) : list (Z * miller) :=
  match asus with
  | [] => []
  | asu :: rest => map (pair (Z.of_nat i)) (Hall asu) ++ keys_of (S i) rest
  end.

(** 0, 1, ..., n-1 *)
Definition arange (n : nat) : list Z := map Z.of_nat (seq 0 n).

(** Two small ASUs for the examples. *)
Definition example_asu_0 : ReciprocalASU :=
  {| Hall := [(0, 0, 1); (0, 1, 0); (1, 0, 0)];
     label_centrics := fun _ => false;
     compute_multiplicity := fun _ => 1 |}.

Definition example_asu_1 : ReciprocalASU :=
  {| Hall := [(0, 0, 2); (0, 0, 1)];
     label_centrics := fun _ => true;
     compute_multiplicity := fun _ => 2 |}.

(** [ReciprocalASU.to_refl_id(H)] and [ReciprocalASU.to_miller_index(refl_id)]:
    lookups in the table of a single ASU, by Miller index and by id. *)
Definition asu_to_refl_id (asu : ReciprocalASU) (H : list miller)
  : result (list Z) :=
  let* data := loc hkl (lookup_table asu) H in
  Ok (map id data).

Definition asu_to_miller_index (asu : ReciprocalASU) (refl_id : list Z)
  : result (list miller) :=
  let* data := loc id (lookup_table asu) refl_id in
  Ok (map hkl data).

(** The properties [centric], [multiplicity], [hkls] and [asu_ids] of a
    collection: columns of [refl_id_lookup_table], in table order. *)
Definition centric (C : ReciprocalASUCollection) : list bool :=
  map CENTRIC (collection_table C).

Definition multiplicity (C : ReciprocalASUCollection) : list Z :=
  map EPSILON (collection_table C).

Definition hkls (C : ReciprocalASUCollection) : list miller :=
  map hkl (collection_table C).

Definition asu_ids (C : ReciprocalASUCollection) : list Z :=
  map asu_id (collection_table C).

(** A row of the collection comes from the ASU its [asu_id] names and
    carries that ASU's labels for its Miller index. *)
Definition row_of (asus : list ReciprocalASU) (r : Row) : Prop :=
  exists asu,
    (0 <= asu_id r)%Z
    /\ nth_error asus (Z.to_nat (asu_id r)) = Some asu
    /\ In (hkl r) (Hall asu)
    /\ CENTRIC r = label_centrics asu (hkl r)
    /\ EPSILON r = compute_multiplicity asu (hkl r).

End ASU.

(** ** io/manager.py: [DataManager.get_wilson_prior] *)

Module ManagerPrior.
Import Py.
Local Open Scope R_scope.

(** The argument [b]: [None], a float, or anything else. *)
Inductive b_arg : Type :=
| BNone
| BFloat (b : R)
| BOther.

(** [self.asu_collection.<name>] for the attributes that hold one float per
    reflection.  A [ReciprocalASUCollection] has the properties [centric]
    and [multiplicity]; it defines no other such attribute ([dHKL] in
    particular) and no [__getattr__]. *)
Definition getattr_array (C : ASU.ReciprocalASUCollection) (name : string)
  : result Wilson.tensor :=
  if String.eqb name "centric"
  then Ok (map (fun c : bool => if c then 1 else 0) (ASU.centric C))
  else if String.eqb name "multiplicity"
  then Ok (map IZR (ASU.multiplicity C))
  else Raise (AttributeError name).

(** [WilsonPrior(args...)]: [__init__(self, centric, epsilon)] takes two
    arguments. *)
Definition WilsonPrior_init (args : list Wilson.tensor)
  : result Wilson.WilsonPrior :=
  match args with
  | [centric; epsilon] =>
      Ok {| Wilson.centric := centric; Wilson.epsilon := epsilon |}
  | _ => Raise TypeError
  end.

Definition get_wilson_prior (C : ASU.ReciprocalASUCollection) (b : b_arg)
  : result Wilson.WilsonPrior :=
  let* sigma :=
    match b with
    | BNone => Ok [1]
    | BFloat b =>
        let* dHKL := getattr_array C "dHKL" in
        Ok (map (fun d => exp (- (1 / 4) * b * / (d * d))) dHKL)
    | BOther => Raise (ValueError [])
    end in
  let* centric := getattr_array C "centric" in
  let* multiplicity := getattr_array C "multiplicity" in
  WilsonPrior_init [centric; multiplicity; sigma].

End ManagerPrior.

(* ================================================================== *)
(** * Part II: properties                                              *)
(* ================================================================== *)

(** ** Lists *)

Lemma filter_none {A : Type} (f : A -> bool) (l : list A) :
  (forall x, In x l -> f x = false) -> List.filter f l = [].
Proof.
  induction l as [|x l IH]; simpl; intros H; [reflexivity|].
  rewrite (H x) by auto. apply IH. auto.
Qed.

(** ** Wilson prior *)

Section WilsonFacts.
Import Py Wilson.
Local Open Scope R_scope.

Lemma map2_length f a b :
  length a = length b -> length (map2 f a b) = length a.
Proof.
  revert b; induction a as [|x a IH]; intros [|y b] H; simpl in *;
    try discriminate; auto.
Qed.

Lemma map2_nth f a b i :
  length a = length b -> (i < length a)%nat ->
  nth i (map2 f a b) 0 = f (nth i a 0) (nth i b 0).
Proof.
  revert b i; induction a as [|x a IH]; intros [|y b] [|i] H Hi; simpl in *;
    try discriminate; try lia; auto.
  apply IH; lia.
Qed.

Lemma broadcast2_same f a b :
  length a = length b -> broadcast2 f a b = Ok (map2 f a b).
Proof.
  intros H. unfold broadcast2. rewrite H, Nat.eqb_refl. reflexivity.
Qed.

Lemma map_nth0 (g : R -> R) l i :
  (i < length l)%nat -> nth i (map g l) 0 = g (nth i l 0).
Proof.
  intros Hi. rewrite (nth_indep _ 0 (g 0)) by (rewrite length_map; lia).
  apply map_nth.
Qed.

Lemma mixture_same pc pa W x :
  length (centric W) = length x ->
  exists p, mixture pc pa W x = Ok p /\ length p = length x /\
    forall i, (i < length x)%nat ->
      nth i p 0 = nth i (centric W) 0 * pc (nth i x 0)
                  + (1 - nth i (centric W) 0) * pa (nth i x 0).
Proof.
  intros Hc. unfold mixture.
  rewrite broadcast2_same by (rewrite length_map; auto). simpl.
  rewrite broadcast2_same by (rewrite !length_map; auto). simpl.
  rewrite broadcast2_same
    by (rewrite !map2_length; rewrite ?length_map; auto).
  eexists; split; [reflexivity|]. split.
  - rewrite !map2_length; rewrite ?length_map; auto;
      rewrite !map2_length; rewrite ?length_map; auto.
  - intros i Hi.
    rewrite map2_nth;
      [| rewrite !map2_length; rewrite ?length_map; auto
       | rewrite map2_length; rewrite ?length_map; auto; lia ].
    rewrite !map2_nth; rewrite ?length_map; auto; try lia.
    rewrite !map_nth0 by lia. reflexivity.
Qed.

Lemma prob_same_length (W : WilsonPrior) (x : tensor) :
  length (centric W) = length x ->
  length (epsilon W) = length x ->
  exists p, prob W x = Ok p /\ length p = length x /\
    forall i, (i < length x)%nat ->
      nth i p 0 =
        nth i (centric W) 0
          * Centric_prob (nth i x 0 / nth i (epsilon W) 0)
        + (1 - nth i (centric W) 0)
          * Acentric_prob (nth i x 0 / nth i (epsilon W) 0).
Proof.
  intros Hc He. unfold prob.
  rewrite broadcast2_same by auto. simpl.
  destruct (mixture_same Centric_prob Acentric_prob W (map2 Rdiv x (epsilon W)))
    as (p & Hp & Hlen & Hnth).
  { rewrite map2_length; auto. }
  exists p. split; [exact Hp|]. rewrite map2_length in Hlen, Hnth by auto.
  split; [exact Hlen|]. intros i Hi.
  rewrite (Hnth i Hi), map2_nth by auto. reflexivity.
Qed.

(** C1 (amended): [prob] divides the amplitude by epsilon elementwise and
    evaluates BOTH branch densities, the centric half-normal as well as the
    acentric one, on the rescaled amplitude; the result has the length of
    the input. *)
Theorem prob_rescales_both_branches (W : WilsonPrior) (x : tensor) :
  length (centric W) = length x ->
  length (epsilon W) = length x ->
  exists p, prob W x = Ok p /\ length p = length x /\
    forall i, (i < length x)%nat ->
      nth i p 0 =
        nth i (centric W) 0
          * Centric_prob (nth i x 0 / nth i (epsilon W) 0)
        + (1 - nth i (centric W) 0)
          * Acentric_prob (nth i x 0 / nth i (epsilon W) 0).
Proof. apply prob_same_length. Qed.

Lemma prob_rescales_both_branches_witness :
  exists p, prob {| centric := [1; 0]; epsilon := [2; 3] |} [4; 5] = Ok p /\
    length p = 2%nat /\
    forall i, (i < 2)%nat ->
      nth i p 0 =
        nth i [1; 0] 0 * Centric_prob (nth i [4; 5] 0 / nth i [2; 3] 0)
        + (1 - nth i [1; 0] 0)
          * Acentric_prob (nth i [4; 5] 0 / nth i [2; 3] 0).
Proof.
  apply (prob_rescales_both_branches
           {| centric := [1; 0]; epsilon := [2; 3] |} [4; 5]);
    reflexivity.
Defined.

Lemma sqrt_2_PI_pos : 0 < sqrt (2 / PI).
Proof.
  apply sqrt_lt_R0. apply Rdiv_lt_0_compat; [lra | apply PI_RGT_0].
Qed.

(** C1 (counterexample): on a centric reflection of multiplicity 2 the code
    evaluates the half-normal at x/epsilon, not at x as the claim has it. *)
Lemma prob_centric_branch_is_rescaled :
  prob {| centric := [1]; epsilon := [2] |} [2]
  <> prob_spec {| centric := [1]; epsilon := [2] |} [2].
Proof.
  unfold prob, prob_spec, mixture_spec, mixture, broadcast2. simpl.
  intros H. injection H as H.
  assert (Hs := sqrt_2_PI_pos).
  unfold Centric_prob in H.
  assert (He : exp (- (2 / 2 * (2 / 2)) / 2) = exp (- (2 * 2) / 2)).
  { apply (Rmult_eq_reg_l (sqrt (2 / PI))); [lra | lra]. }
  apply exp_inv in He. lra.
Qed.

(** [log_prob] never reads epsilon. *)
Lemma log_prob_ignores_epsilon (c e e' x : tensor) :
  log_prob {| centric := c; epsilon := e |} x
  = log_prob {| centric := c; epsilon := e' |} x.
Proof. reflexivity. Qed.

Lemma ln_sqrt_half (q : R) : 0 < q -> ln (sqrt q) = ln q / 2.
Proof.
  intros Hq. assert (Hs : 0 < sqrt q) by (apply sqrt_lt_R0; exact Hq).
  assert (H : ln q = ln (sqrt q) + ln (sqrt q)).
  { rewrite <- ln_mult by exact Hs. rewrite sqrt_sqrt by lra. reflexivity. }
  lra.
Qed.

Lemma Centric_log_prob_ln (E : R) :
  Centric_log_prob E = ln (Centric_prob E).
Proof.
  unfold Centric_log_prob, Centric_prob.
  assert (Hq : 0 < 2 / PI)
    by (apply Rdiv_lt_0_compat; [lra | apply PI_RGT_0]).
  rewrite ln_mult; [| apply sqrt_2_PI_pos | apply exp_pos].
  rewrite ln_exp, ln_sqrt_half by exact Hq. lra.
Qed.

Lemma Acentric_log_prob_ln (E : R) :
  0 < E -> Acentric_log_prob E = ln (Acentric_prob E).
Proof.
  intros HE. unfold Acentric_log_prob, Acentric_prob.
  rewrite ln_mult; [| lra | apply exp_pos].
  rewrite ln_mult by lra. rewrite ln_exp. lra.
Qed.

Lemma ln_2_neq_3 : ln 2 <> 3.
Proof.
  intros H. assert (He : exp (ln 2) = exp 3) by (rewrite H; reflexivity).
  rewrite exp_ln in He by lra.
  assert (Hlt : 1 + 3 < exp 3) by (apply exp_ineq1; lra). lra.
Qed.

(** C3 (the code at the failing input): for one acentric reflection of
    multiplicity 2 and amplitude 2, [log_prob] returns ln 2 + ln 2 - 4
    while [prob] returns the positive density 2 * 1 * exp (-1), whose
    logarithm is ln 2 - 1: [log_prob] is not the logarithm of [prob]. *)
Theorem log_prob_is_not_log_of_prob :
  exists l p,
    log_prob {| centric := [0]; epsilon := [2] |} [2] = Ok [l] /\
    prob {| centric := [0]; epsilon := [2] |} [2] = Ok [p] /\
    0 < p /\ l <> ln p.
Proof.
  unfold log_prob, prob, mixture, broadcast2. simpl.
  do 2 eexists. split; [reflexivity|]. split; [reflexivity|].
  replace (2 / 2) with 1 by lra.
  replace (0 * Centric_prob 1 + (1 - 0) * Acentric_prob 1)
    with (Acentric_prob 1) by lra.
  split.
  - unfold Acentric_prob. assert (H := exp_pos (- (1 * 1))). lra.
  - rewrite <- Acentric_log_prob_ln by lra.
    unfold Acentric_log_prob. rewrite ln_1.
    assert (H := ln_2_neq_3). lra.
Qed.

(** X2: where the two evaluations do agree: with unit multiplicities,
    centric flags in {0, 1} and positive amplitudes, [log_prob] is entry by
    entry the logarithm of [prob]. *)
Lemma log_prob_is_log_of_prob_unit_epsilon (W : WilsonPrior) (x : tensor) :
  length (centric W) = length x ->
  length (epsilon W) = length x ->
  Forall (fun e => e = 1) (epsilon W) ->
  Forall (fun c => c = 0 \/ c = 1) (centric W) ->
  Forall (fun E => 0 < E) x ->
  exists l p, log_prob W x = Ok l /\ prob W x = Ok p /\
    length l = length x /\ length p = length x /\
    forall i, (i < length x)%nat -> nth i l 0 = ln (nth i p 0).
Proof.
  intros Hc He H1 H01 Hx.
  destruct (prob_same_length W x Hc He) as (p & Hp & Hlp & Hnp).
  destruct (mixture_same Centric_log_prob Acentric_log_prob W x Hc)
    as (l & Hl & Hll & Hnl).
  exists l, p. repeat split; auto.
  intros i Hi. rewrite (Hnl i Hi), (Hnp i Hi).
  assert (Hei : nth i (epsilon W) 0 = 1).
  { rewrite List.Forall_forall in H1. apply H1, nth_In. lia. }
  assert (Hci : nth i (centric W) 0 = 0 \/ nth i (centric W) 0 = 1).
  { rewrite List.Forall_forall in H01. apply H01, nth_In. lia. }
  assert (Hxi : 0 < nth i x 0).
  { rewrite List.Forall_forall in Hx. apply Hx, nth_In. lia. }
  rewrite Hei. replace (nth i x 0 / 1) with (nth i x 0) by lra.
  destruct Hci as [-> | ->].
  - replace (0 * Centric_prob (nth i x 0) + (1 - 0) * Acentric_prob (nth i x 0))
      with (Acentric_prob (nth i x 0)) by lra.
    rewrite <- Acentric_log_prob_ln by exact Hxi. lra.
  - replace (1 * Centric_prob (nth i x 0) + (1 - 1) * Acentric_prob (nth i x 0))
      with (Centric_prob (nth i x 0)) by lra.
    rewrite <- Centric_log_prob_ln. lra.
Qed.

(** *** Further properties of the Wilson prior *)

(** X1: [log_prob] of an amplitude vector as long as the centric array
    returns, entry by entry, the mixture of the two log densities at the
    amplitude itself; the epsilon array is not consulted, whatever its
    length. *)
Theorem log_prob_elementwise (W : WilsonPrior) (x : tensor) :
  length (centric W) = length x ->
  exists l, log_prob W x = Ok l /\ length l = length x /\
    forall i, (i < length x)%nat ->
      nth i l 0 = nth i (centric W) 0 * Centric_log_prob (nth i x 0)
                  + (1 - nth i (centric W) 0) * Acentric_log_prob (nth i x 0).
Proof. intros Hc. apply mixture_same, Hc. Qed.

Lemma log_prob_elementwise_witness :
  exists l, log_prob {| centric := [1; 0]; epsilon := [2] |} [4; 5] = Ok l /\
    length l = 2%nat /\
    forall i, (i < 2)%nat ->
      nth i l 0 = nth i [1; 0] 0 * Centric_log_prob (nth i [4; 5] 0)
                  + (1 - nth i [1; 0] 0) * Acentric_log_prob (nth i [4; 5] 0).
Proof.
  apply (log_prob_elementwise {| centric := [1; 0]; epsilon := [2] |} [4; 5]).
  reflexivity.
Defined.

Lemma log_prob_is_log_of_prob_unit_epsilon_witness :
  exists l p,
    log_prob {| centric := [1; 0]; epsilon := [1; 1] |} [2; 3] = Ok l /\
    prob {| centric := [1; 0]; epsilon := [1; 1] |} [2; 3] = Ok p /\
    length l = 2%nat /\ length p = 2%nat /\
    forall i, (i < 2)%nat -> nth i l 0 = ln (nth i p 0).
Proof.
  apply (log_prob_is_log_of_prob_unit_epsilon
           {| centric := [1; 0]; epsilon := [1; 1] |} [2; 3]);
    try reflexivity; repeat constructor; simpl; lra.
Defined.

Lemma PI_lt_4 : PI < 4.
Proof.
  destruct (PI_ineq 1) as (_ & Hub).
  unfold sum_f_R0, tg_alt, PI_tg in Hub. simpl in Hub. lra.
Qed.

(** X4: for an acentric reflection (flag 0) the moments reported by [mean]
    and [stddev] are those of a normalised amplitude: the mean is
    sqrt(pi)/2, the standard deviation is positive, and mean^2 + stddev^2
    = 1, whatever the half-normal reports for the centric branch. *)
Theorem acentric_moments_normalised
    (Centric_mean Centric_stddev : R) (W : WilsonPrior) (i : nat) :
  (i < length (centric W))%nat ->
  nth i (centric W) 0 = 0 ->
  length (mean Centric_mean W) = length (centric W)
  /\ length (stddev Centric_stddev W) = length (centric W)
  /\ nth i (mean Centric_mean W) 0 = sqrt PI / 2
  /\ 0 < nth i (stddev Centric_stddev W) 0
  /\ nth i (mean Centric_mean W) 0 * nth i (mean Centric_mean W) 0
     + nth i (stddev Centric_stddev W) 0 * nth i (stddev Centric_stddev W) 0
     = 1.
Proof.
  intros Hi Hc. unfold mean, stddev. rewrite !length_map.
  rewrite !map_nth0 by exact Hi.
  rewrite Hc. unfold Acentric_mean, Acentric_stddev.
  pose proof PI_lt_4 as H4. pose proof PI_RGT_0 as H0.
  assert (Hs : 0 < sqrt (1 - 1 / 4 * PI)) by (apply sqrt_lt_R0; lra).
  assert (Hs2 : sqrt (1 - 1 / 4 * PI) * sqrt (1 - 1 / 4 * PI) = 1 - 1 / 4 * PI)
    by (apply sqrt_sqrt; lra).
  assert (Hp2 : sqrt PI * sqrt PI = PI) by (apply sqrt_sqrt; lra).
  repeat split; lra.
Qed.

Lemma acentric_moments_normalised_witness :
  length (mean 7 {| centric := [1; 0]; epsilon := [1; 2] |}) = 2%nat
  /\ length (stddev 9 {| centric := [1; 0]; epsilon := [1; 2] |}) = 2%nat
  /\ nth 1 (mean 7 {| centric := [1; 0]; epsilon := [1; 2] |}) 0 = sqrt PI / 2
  /\ 0 < nth 1 (stddev 9 {| centric := [1; 0]; epsilon := [1; 2] |}) 0
  /\ nth 1 (mean 7 {| centric := [1; 0]; epsilon := [1; 2] |}) 0
     * nth 1 (mean 7 {| centric := [1; 0]; epsilon := [1; 2] |}) 0
     + nth 1 (stddev 9 {| centric := [1; 0]; epsilon := [1; 2] |}) 0
       * nth 1 (stddev 9 {| centric := [1; 0]; epsilon := [1; 2] |}) 0
     = 1.
Proof.
  apply (acentric_moments_normalised 7 9
           {| centric := [1; 0]; epsilon := [1; 2] |} 1%nat);
    [simpl; lia | reflexivity].
Defined.

End WilsonFacts.

(** ** Laue likelihood *)

Section LaueFacts.
Import Py Laue.
Local Open Scope R_scope.

(** C4: whatever the arguments, [get_sparse_conv_tensor] stops at its first
    statement with NameError: [intensities] is bound neither in the
    function nor at module level in laue.py (nor is it a builtin). *)
Theorem get_sparse_conv_tensor_raises_NameError
    (builtins : namespace) (harmonic_id : list Z) (nobs : pyval) :
  builtins !! "intensities"%string = None ->
  get_sparse_conv_tensor laue_globals builtins harmonic_id nobs
  = Raise (NameError "intensities").
Proof.
  intros Hb. unfold get_sparse_conv_tensor, load_global.
  assert (Hg : laue_globals !! "intensities"%string = None)
    by (vm_compute; reflexivity).
  rewrite Hg, Hb. reflexivity.
Qed.

Lemma get_sparse_conv_tensor_raises_NameError_witness :
  get_sparse_conv_tensor laue_globals
    (list_to_map [("len", PyObject "len"); ("range", PyObject "range")]%string)
    [0; 0; 1]%Z (PyInt 2)
  = Raise (NameError "intensities").
Proof.
  apply get_sparse_conv_tensor_raises_NameError.
  vm_compute. reflexivity.
Defined.

(** X5: [LaueBase.call] stops before it calls anything: [nobs], which it
    passes to [get_sparse_conv_tensor], is bound neither in [call] nor at
    module level, so every call raises NameError. *)
Lemma call_raises_NameError builtins _dist harmonic_id intensities uncertainties :
  builtins !! "nobs"%string = None ->
  call laue_globals builtins _dist harmonic_id intensities uncertainties
  = Raise (NameError "nobs").
Proof.
  intros Hb. unfold call, load_global.
  assert (Hg : laue_globals !! "nobs"%string = None)
    by (vm_compute; reflexivity).
  rewrite Hg, Hb. reflexivity.
Qed.

(** C2 (the code): [convolve] never hands the aggregate back (it returns
    [None] or raises), and so [log_prob] never returns. *)
Theorem convolve_drops_the_aggregate (L : ConvolvedLikelihood) (value : matrix) :
  (forall t, convolve L value <> Ok (PyTensor t)) /\
  (forall lp, log_prob L value <> Ok lp).
Proof.
  unfold log_prob, convolve.
  destruct (sparse_dense_matmul (sparse_conv_tensor L) value); simpl;
    split; intros; discriminate.
Qed.

(** What the dropped product holds: with the incidence tensor of
    [conv_tensor], entry (r, j) is the exact sum of the predictions of
    sample j over the harmonics of observation r. *)
Lemma sparse_row_dot_from (harmonic_id : list Z) (r : Z) :
  forall (sample pre : list R) (k : nat),
    length sample = length harmonic_id -> length pre = k ->
    fold_right Rplus 0
      (map (fun e : (Z * Z) * R =>
              if (fst (fst e) =? r)%Z
              then snd e * nth (Z.to_nat (snd (fst e))) (pre ++ sample) 0
              else 0)
           (combine (combine harmonic_id
                       (map Z.of_nat (seq k (length harmonic_id))))
                    (repeat 1 (length harmonic_id))))
    = harmonic_sum harmonic_id r sample.
Proof.
  induction harmonic_id as [|h hs IH]; intros sample pre k Hlen Hk.
  - reflexivity.
  - destruct sample as [|x sample]; [discriminate|].
    simpl in Hlen. injection Hlen as Hlen.
    unfold harmonic_sum.
    cbn [length seq map repeat combine fold_right List.filter fst snd].
    specialize (IH sample (pre ++ [x]) (S k) Hlen).
    rewrite <- app_assoc in IH. cbn [app] in IH.
    rewrite IH by (rewrite length_app; simpl; lia).
    subst k. rewrite Nat2Z.id, nth_middle.
    unfold harmonic_sum.
    destruct (h =? r)%Z; cbn [map snd fold_right]; lra.
Qed.

Lemma sparse_row_dot_conv_tensor harmonic_id nobs r sample :
  length sample = length harmonic_id ->
  sparse_row_dot (conv_tensor harmonic_id nobs) r sample
  = harmonic_sum harmonic_id r sample.
Proof.
  intros Hlen. unfold sparse_row_dot, conv_tensor, tf_range. cbn [indices values].
  exact (sparse_row_dot_from harmonic_id r sample [] 0%nat Hlen eq_refl).
Qed.

(** One observation with two harmonics, one sample with predictions 1 and
    2: the product is [[1 + 2]], and [convolve] returns [None]. *)
Example convolve_two_harmonics :
  let L := {| sparse_conv_tensor := conv_tensor [0; 0]%Z 1;
              distribution := {| loc := [3]; scale := [1];
                                 log_density := fun l s v => v - l |} |} in
  sparse_dense_matmul (sparse_conv_tensor L) [[1; 2]] = Ok [[1 * 1 + (1 * 2 + 0)]]
  /\ convolve L [[1; 2]] = Ok PyNone
  /\ log_prob L [[1; 2]] = Raise (ValueError []).
Proof.
  cbv zeta. unfold log_prob, convolve.
  assert (H : sparse_dense_matmul
                (sparse_conv_tensor
                   {| sparse_conv_tensor := conv_tensor [0; 0]%Z 1;
                      distribution := {| loc := [3]; scale := [1];
                                         log_density := fun l s v => v - l |} |})
                [[1; 2]] = Ok [[1 * 1 + (1 * 2 + 0)]]) by reflexivity.
  rewrite H. repeat split.
Qed.

(** *** Further properties of the Laue likelihood *)

Lemma call_raises_NameError_witness :
  call laue_globals
    (list_to_map [("len", PyObject "len"); ("range", PyObject "range")]%string)
    (fun l s => Ok {| loc := l; scale := s; log_density := fun l s v => v - l |})
    [0; 0; 1]%Z [3; 4] [1; 1]
  = Raise (NameError "nobs").
Proof.
  apply call_raises_NameError. vm_compute. reflexivity.
Defined.

Lemma tf_range_In (n : nat) (r : Z) :
  In r (tf_range n) <-> (0 <= r < Z.of_nat n)%Z.
Proof.
  unfold tf_range. rewrite in_map_iff. split.
  - intros (k & <- & Hk). apply in_seq in Hk. lia.
  - intros Hr. exists (Z.to_nat r). split; [lia|]. apply in_seq. lia.
Qed.

Lemma tf_range_NoDup (n : nat) : List.NoDup (tf_range n).
Proof.
  unfold tf_range. apply Injective_map_NoDup; [|apply seq_NoDup].
  intros x y Heq. lia.
Qed.

Lemma conv_tensor_in_shape (harmonic_id : list Z) (nobs : Z) :
  List.Forall (fun h => (0 <= h < nobs)%Z) harmonic_id ->
  forallb (in_shape (dense_shape (conv_tensor harmonic_id nobs)))
          (indices (conv_tensor harmonic_id nobs)) = true.
Proof.
  intros Hvalid. unfold conv_tensor. cbn [dense_shape indices].
  apply forallb_forall. intros [h i] Hin.
  pose proof (in_combine_l _ _ _ _ Hin) as Hh.
  pose proof (in_combine_r _ _ _ _ Hin) as Hi.
  rewrite List.Forall_forall in Hvalid. specialize (Hvalid h Hh).
  apply tf_range_In in Hi.
  unfold in_shape. cbn [fst snd].
  repeat (apply andb_true_iff; split);
    try (apply Z.leb_le; lia); apply Z.ltb_lt; lia.
Qed.

Lemma sparse_dense_matmul_sums_harmonics'
    (harmonic_id : list Z) (nobs : Z) (value : matrix) :
  List.Forall (fun h => (0 <= h < nobs)%Z) harmonic_id ->
  List.Forall (fun sample => length sample = length harmonic_id) value ->
  sparse_dense_matmul (conv_tensor harmonic_id nobs) value
  = Ok (map (fun r => map (harmonic_sum harmonic_id r) value)
            (tf_range (Z.to_nat nobs))).
Proof.
  intros Hvalid Hrows. unfold sparse_dense_matmul.
  rewrite conv_tensor_in_shape by exact Hvalid.
  assert (Hw : forallb
    (fun row => (Z.of_nat (length row)
                 =? snd (dense_shape (conv_tensor harmonic_id nobs)))%Z)
    value = true).
  { apply forallb_forall. intros row Hrow.
    rewrite List.Forall_forall in Hrows. rewrite (Hrows row Hrow).
    apply Z.eqb_refl. }
  rewrite Hw. cbn [andb]. f_equal.
  apply map_ext. intros r. apply map_ext_in. intros sample Hs.
  apply sparse_row_dot_conv_tensor.
  rewrite List.Forall_forall in Hrows. auto.
Qed.

(** X6: with the incidence tensor that [get_sparse_conv_tensor] builds
    after its first statement (one stored 1 per harmonic, at row
    harmonic_id[i] and column i), the product of [sparse_dense_matmul] with
    adjoint_b=True holds, at (r, j), the exact sum of the predictions of
    sample j over the harmonics assigned to observation r. *)
Theorem sparse_dense_matmul_sums_harmonics
    (harmonic_id : list Z) (nobs : Z) (value : matrix) :
  List.Forall (fun h => (0 <= h < nobs)%Z) harmonic_id ->
  List.Forall (fun sample => length sample = length harmonic_id) value ->
  sparse_dense_matmul (conv_tensor harmonic_id nobs) value
  = Ok (map (fun r => map (harmonic_sum harmonic_id r) value)
            (tf_range (Z.to_nat nobs))).
Proof. apply sparse_dense_matmul_sums_harmonics'. Qed.

Lemma sparse_dense_matmul_sums_harmonics_witness :
  sparse_dense_matmul (conv_tensor [0; 0; 1]%Z 2) [[1; 2; 3]; [4; 5; 6]]
  = Ok (map (fun r => map (harmonic_sum [0; 0; 1]%Z r) [[1; 2; 3]; [4; 5; 6]])
            (tf_range (Z.to_nat 2))).
Proof.
  apply (sparse_dense_matmul_sums_harmonics [0; 0; 1]%Z 2
           [[1; 2; 3]; [4; 5; 6]]);
    repeat constructor; lia.
Defined.

Lemma sum_zeros {A : Type} (l : list A) :
  fold_right Rplus 0 (map (fun _ => 0) l) = 0.
Proof. induction l as [|a l IH]; simpl; [|rewrite IH]; lra. Qed.

Lemma sum_plus {A : Type} (f g : A -> R) (l : list A) :
  fold_right Rplus 0 (map (fun a => f a + g a) l)
  = fold_right Rplus 0 (map f l) + fold_right Rplus 0 (map g l).
Proof. induction l as [|a l IH]; simpl; [|rewrite IH]; lra. Qed.

Lemma sum_indicator (h : Z) (x : R) (rs : list Z) :
  List.NoDup rs -> In h rs ->
  fold_right Rplus 0 (map (fun r => if (h =? r)%Z then x else 0) rs) = x.
Proof.
  induction rs as [|r rs IH]; [intros _ []|].
  intros Hnd Hin. inversion Hnd as [|? ? Hr Hrs]; subst. simpl.
  destruct (h =? r)%Z eqn:Heq.
  - apply Z.eqb_eq in Heq. subst r.
    rewrite (map_ext_in _ (fun _ => 0)), sum_zeros; [lra|].
    intros r Hr'. destruct (h =? r)%Z eqn:Heq'; [|reflexivity].
    apply Z.eqb_eq in Heq'. subst. contradiction.
  - apply Z.eqb_neq in Heq. destruct Hin as [-> | Hin]; [congruence|].
    rewrite IH by assumption. lra.
Qed.

Lemma harmonic_sum_total (rs : list Z) (harmonic_id : list Z) :
  List.NoDup rs ->
  forall sample,
    (forall h, In h harmonic_id -> In h rs) ->
    length sample = length harmonic_id ->
    fold_right Rplus 0 (map (fun r => harmonic_sum harmonic_id r sample) rs)
    = fold_right Rplus 0 sample.
Proof.
  intros Hnd. induction harmonic_id as [|h hs IH]; intros sample Hsub Hlen.
  - destruct sample; [|discriminate]. unfold harmonic_sum. simpl.
    apply sum_zeros.
  - destruct sample as [|x sample]; [discriminate|].
    injection Hlen as Hlen.
    rewrite (map_ext _ (fun r => (if (h =? r)%Z then x else 0)
                                 + harmonic_sum hs r sample)).
    + rewrite sum_plus, sum_indicator, IH; auto.
      * intros h' Hh'. apply Hsub. right. exact Hh'.
      * apply Hsub. left. reflexivity.
    + intros r. unfold harmonic_sum.
      cbn [combine List.filter fst]. destruct (h =? r)%Z; simpl; lra.
Qed.

(** X7: the convolution conserves the total: when every harmonic id is an
    observation row, the entries of the product for one sample, added over
    the observations, give the sum of that sample's harmonic predictions
    (each harmonic is counted once, in one observation). *)
Theorem sparse_dense_matmul_conserves_total
    (harmonic_id : list Z) (nobs : Z) (value : matrix) :
  List.Forall (fun h => (0 <= h < nobs)%Z) harmonic_id ->
  List.Forall (fun sample => length sample = length harmonic_id) value ->
  exists product,
    sparse_dense_matmul (conv_tensor harmonic_id nobs) value = Ok product
    /\ length product = Z.to_nat nobs
    /\ forall j sample, nth_error value j = Some sample ->
         fold_right Rplus 0 (map (fun row => nth j row 0) product)
         = fold_right Rplus 0 sample.
Proof.
  intros Hvalid Hrows.
  rewrite sparse_dense_matmul_sums_harmonics' by assumption.
  eexists; split; [reflexivity|]. split.
  - unfold tf_range. rewrite !length_map, length_seq. reflexivity.
  - intros j sample Hj. rewrite map_map.
    rewrite (map_ext _ (fun r => harmonic_sum harmonic_id r sample)).
    + apply harmonic_sum_total; [apply tf_range_NoDup | |].
      * intros h Hh. apply tf_range_In.
        rewrite List.Forall_forall in Hvalid. specialize (Hvalid h Hh). lia.
      * rewrite List.Forall_forall in Hrows. apply Hrows.
        eapply nth_error_In; eauto.
    + intros r.
      assert (Hlt : (j < length value)%nat)
        by (apply nth_error_Some; rewrite Hj; discriminate).
      rewrite (nth_indep _ 0 (harmonic_sum harmonic_id r [])) by
        (rewrite length_map; exact Hlt).
      rewrite map_nth. f_equal.
      apply nth_error_nth with (d := []) in Hj. exact Hj.
Qed.

Lemma sparse_dense_matmul_conserves_total_witness :
  exists product,
    sparse_dense_matmul (conv_tensor [0; 0; 1]%Z 2) [[1; 2; 3]; [4; 5; 6]]
    = Ok product
    /\ length product = Z.to_nat 2
    /\ forall j sample, nth_error [[1; 2; 3]; [4; 5; 6]] j = Some sample ->
         fold_right Rplus 0 (map (fun row => nth j row 0) product)
         = fold_right Rplus 0 sample.
Proof.
  apply (sparse_dense_matmul_conserves_total [0; 0; 1]%Z 2
           [[1; 2; 3]; [4; 5; 6]]);
    repeat constructor; lia.
Defined.

End LaueFacts.

(** ** Metadata standardisation *)

Section MergeFacts.
Import Py Merge.






(** *** Shape and NaN behaviour of the standardisation *)

Lemma fold_left_zip_with_length (f : float32 -> float32 -> float32) m :
  forall (rows : array2) (acc : list float32),
    length acc = m -> List.Forall (fun r => length r = m) rows ->
    length (fold_left (zip_with f) rows acc) = m.
Proof.
  induction rows as [|r rows IH]; intros acc Hacc Hrows; simpl; [exact Hacc|].
  inversion Hrows as [|? ? Hr Hrest]; subst.
  apply IH; [|exact Hrest]. rewrite length_zip_with. lia.
Qed.

Lemma sum0_length m (a : array2) :
  List.Forall (fun r => length r = m) a -> length (sum0 m a) = m.
Proof.
  intros Ha. destruct a as [|r rs]; simpl.
  - apply repeat_length.
  - inversion Ha; subst. apply fold_left_zip_with_length; auto.
Qed.

Lemma mean0_length m (a : array2) :
  List.Forall (fun r => length r = m) a -> length (mean0 m a) = m.
Proof. intros Ha. unfold mean0. rewrite length_map. apply sum0_length, Ha. Qed.

Lemma std0_length m (a : array2) :
  List.Forall (fun r => length r = m) a -> length (std0 m a) = m.
Proof.
  intros Ha. unfold std0. rewrite length_map. apply mean0_length.
  apply List.Forall_forall. intros r Hr.
  apply in_map_iff in Hr as (r1 & <- & Hr1).
  apply in_map_iff in Hr1 as (r0 & <- & Hr0).
  rewrite length_map, length_zip_with, mean0_length by exact Ha.
  rewrite List.Forall_forall in Ha. rewrite (Ha r0 Hr0). lia.
Qed.

(** X8: the standardisation keeps the shape: from n rows of m metadata
    values it makes n rows of m values. *)
Theorem standardize_shape (m : nat) (metadata : array2) :
  List.Forall (fun r => length r = m) metadata ->
  length (standardize m metadata) = length metadata
  /\ List.Forall (fun r => length r = m) (standardize m metadata).
Proof.
  intros Ha. unfold standardize. split; [apply length_map|].
  apply List.Forall_forall. intros r Hr.
  apply in_map_iff in Hr as (r0 & <- & Hr0).
  rewrite !length_zip_with, mean0_length, std0_length by exact Ha.
  rewrite List.Forall_forall in Ha. rewrite (Ha r0 Hr0). lia.
Qed.

Lemma standardize_shape_witness :
  length (standardize 2 [[f32_one; f32_one]; [f32_one; f32_of_int 3]]) = 2%nat
  /\ List.Forall (fun r => length r = 2%nat)
       (standardize 2 [[f32_one; f32_one]; [f32_one; f32_of_int 3]]).
Proof.
  apply (standardize_shape 2 [[f32_one; f32_one]; [f32_one; f32_of_int 3]]).
  repeat constructor.
Defined.

Lemma f32_add_nan_l (y : float32) : f32_add S754_nan y = S754_nan.
Proof. reflexivity. Qed.

Lemma f32_add_nan_r (x : float32) : f32_add x S754_nan = S754_nan.
Proof. destruct x; reflexivity. Qed.

Lemma f32_sub_nan_r (x : float32) : f32_sub x S754_nan = S754_nan.
Proof. destruct x; reflexivity. Qed.

Lemma f32_div_nan_l (y : float32) : f32_div S754_nan y = S754_nan.
Proof. reflexivity. Qed.

Lemma fold_left_add_nan m j :
  forall (rows : array2) (acc : list float32),
    length acc = m -> List.Forall (fun r => length r = m) rows ->
    acc !! j = Some S754_nan \/ (exists r, In r rows /\ r !! j = Some S754_nan) ->
    fold_left (zip_with f32_add) rows acc !! j = Some S754_nan.
Proof.
  induction rows as [|r rows IH]; intros acc Hacc Hrows Hnan; simpl.
  - destruct Hnan as [H | (r & [] & _)]. exact H.
  - apply List.Forall_cons_iff in Hrows as (Hr & Hrest).
    apply IH; [rewrite length_zip_with; lia | exact Hrest |].
    destruct Hnan as [Hj | (r' & [<- | Hin] & Hj)].
    + left. apply lookup_zip_with_Some.
      assert (Hlt : (j < length r)%nat).
      { rewrite Hr, <- Hacc. eapply lookup_lt_Some; eauto. }
      apply lookup_lt_is_Some in Hlt as (y & Hy).
      exists S754_nan, y. auto using f32_add_nan_l.
    + left. apply lookup_zip_with_Some.
      assert (Hlt : (j < length acc)%nat).
      { rewrite Hacc, <- Hr. eapply lookup_lt_Some; eauto. }
      apply lookup_lt_is_Some in Hlt as (x & Hx).
      exists x, S754_nan. auto using f32_add_nan_r.
    + right. eauto.
Qed.

Lemma mean0_nan m (a : array2) j :
  List.Forall (fun r => length r = m) a ->
  (exists r, In r a /\ r !! j = Some S754_nan) ->
  mean0 m a !! j = Some S754_nan.
Proof.
  intros Ha (r & Hin & Hj). unfold mean0.
  change (map ?f ?l) with (f <$> l). rewrite list_lookup_fmap.
  assert (Hs : sum0 m a !! j = Some S754_nan).
  { destruct a as [|r0 rs]; [destruct Hin|]. simpl.
    inversion Ha as [|? ? Hr0 Hrs]; subst.
    apply (fold_left_add_nan (length r0)); auto.
    destruct Hin as [-> | Hin]; eauto. }
  unfold float32 in *. rewrite Hs. reflexivity.
Qed.

(** X9: one NaN in a metadata column makes the whole standardised column
    NaN: the column mean is NaN, and so is every centred and scaled
    entry. *)
Theorem standardize_nan_poisons_column (m : nat) (metadata : array2) (j : nat) :
  List.Forall (fun r => length r = m) metadata ->
  (exists r, In r metadata /\ r !! j = Some S754_nan) ->
  List.Forall (fun r => r !! j = Some S754_nan) (standardize m metadata).
Proof.
  intros Ha Hnan.
  pose proof (mean0_nan m metadata j Ha Hnan) as Hmu.
  assert (Hjm : (j < m)%nat).
  { rewrite <- (mean0_length m metadata Ha). eapply lookup_lt_Some; eauto. }
  assert (Hsd : exists sd, std0 m metadata !! j = Some sd).
  { apply lookup_lt_is_Some. rewrite std0_length by exact Ha. exact Hjm. }
  destruct Hsd as (sd & Hsd).
  unfold standardize. apply List.Forall_forall. intros r Hr.
  apply in_map_iff in Hr as (r0 & <- & Hr0).
  assert (Hx : exists x, r0 !! j = Some x).
  { apply lookup_lt_is_Some. rewrite List.Forall_forall in Ha.
    rewrite (Ha r0 Hr0). exact Hjm. }
  destruct Hx as (x & Hx).
  apply lookup_zip_with_Some. exists S754_nan, sd.
  split; [reflexivity|]. split; [|exact Hsd].
  apply lookup_zip_with_Some. exists x, S754_nan.
  split; [symmetry; apply f32_sub_nan_r|]. auto.
Qed.

Lemma standardize_nan_poisons_column_witness :
  List.Forall (fun r => r !! 1%nat = Some S754_nan)
    (standardize 2 [[f32_one; f32_one]; [f32_of_int 3; S754_nan];
                    [f32_of_int 5; f32_of_int 7]]).
Proof.
  apply (standardize_nan_poisons_column 2
           [[f32_one; f32_one]; [f32_of_int 3; S754_nan];
            [f32_of_int 5; f32_of_int 7]] 1).
  - repeat constructor.
  - exists [f32_of_int 3; S754_nan]. split; [simpl; auto | reflexivity].
Defined.

(** *** Default keys of [BaseMerger] *)

Lemma keys_where_filter (f : string * string -> bool) (ds : dtypes) :
  keys_where (map f ds) ds = map fst (List.filter f ds).
Proof.
  unfold keys_where. induction ds as [|kv ds IH]; simpl; [reflexivity|].
  destruct (f kv); simpl; rewrite IH; reflexivity.
Qed.

Lemma count_true_filter (f : string * string -> bool) (ds : dtypes) :
  length (List.filter (fun b : bool => b) (map f ds))
  = length (List.filter f ds).
Proof.
  induction ds as [|kv ds IH]; simpl; [reflexivity|].
  destruct (f kv); simpl; rewrite IH; reflexivity.
Qed.

Lemma get_first_key_of_type_filter (ds : dtypes) (typestring : string) :
  get_first_key_of_type ds typestring
  = match List.filter is_J ds with
    | [] => Raise KeyError
    | kv :: _ => Ok (fst kv)
    end.
Proof.
  unfold get_first_key_of_type. fold is_J.
  rewrite count_true_filter, keys_where_filter.
  destruct (List.filter is_J ds); reflexivity.
Qed.

Lemma filter_head {A : Type} (f : A -> bool) (l : list A) x rest :
  List.filter f l = x :: rest ->
  exists pre post, l = pre ++ x :: post
    /\ List.Forall (fun y => f y = false) pre /\ f x = true.
Proof.
  induction l as [|a l IH]; simpl; [discriminate|].
  destruct (f a) eqn:Hfa.
  - intros H. injection H as -> _. exists [], l. auto.
  - intros H. destruct (IH H) as (pre & post & -> & Hpre & Hx).
    exists (a :: pre), post. auto.
Qed.

Lemma is_J_false (kv : string * string) :
  is_J kv = false <-> snd kv <> "J"%string.
Proof. unfold is_J. apply String.eqb_neq. Qed.

(** X10: [get_first_key_of_type] looks for dtype 'J' whatever typestring it
    is given: it returns a key exactly when that key is the first column of
    dtype 'J', and raises KeyError exactly when no column has dtype 'J'. *)
Theorem get_first_key_of_type_finds_J (ds : dtypes) (typestring : string) :
  (get_first_key_of_type ds typestring = Raise KeyError
   <-> List.Forall (fun kv => snd kv <> "J"%string) ds)
  /\ (forall k,
        get_first_key_of_type ds typestring = Ok k
        <-> exists pre post, ds = pre ++ (k, "J"%string) :: post
              /\ List.Forall (fun kv => snd kv <> "J"%string) pre).
Proof.
  rewrite get_first_key_of_type_filter. split.
  - split.
    + intros H. destruct (List.filter is_J ds) as [|kv l] eqn:Hf; [|discriminate].
      apply List.Forall_forall. intros kv Hkv. apply is_J_false.
      destruct (is_J kv) eqn:HJ; [|reflexivity].
      assert (Hin : In kv (List.filter is_J ds)) by (apply filter_In; auto).
      rewrite Hf in Hin. destruct Hin.
    + intros Hall. rewrite filter_none; [reflexivity|].
      intros kv Hkv. apply is_J_false.
      rewrite List.Forall_forall in Hall. auto.
  - intros k. split.
    + intros H. destruct (List.filter is_J ds) as [|[k' t] l] eqn:Hf;
        [discriminate|].
      injection H as <-.
      destruct (filter_head _ _ _ _ Hf) as (pre & post & -> & Hpre & HJ).
      unfold is_J in HJ. apply String.eqb_eq in HJ. simpl in HJ. subst t.
      exists pre, post. split; [reflexivity|].
      eapply List.Forall_impl; [|exact Hpre]. intros kv. apply is_J_false.
    + intros (pre & post & -> & Hpre).
      rewrite List.filter_app, (filter_none is_J pre).
      * simpl. reflexivity.
      * intros kv Hkv. apply is_J_false.
        rewrite List.Forall_forall in Hpre. auto.
Qed.

(** X11: when [BaseMerger.__init__] finds neither a column Sig<I> nor a
    column SIG<I> for its intensity key I, the uncertainty key it settles
    on is I itself: the fallback lookup for dtype 'Q' returns the first
    column of dtype 'J'.  The metadata keys always end with 'dHKL'. *)
Theorem guess_keys_sigma_fallback
    (ds : dtypes) (file_id : option (list Z)) (K : MergerKeys) :
  guess_keys ds file_id = Ok K ->
  has_column ds (String.append "Sig" (intensity_key K)) = false ->
  has_column ds (String.append "SIG" (intensity_key K)) = false ->
  sigma_intensity_key K = intensity_key K
  /\ In (intensity_key K, "J"%string) ds
  /\ exists keys, metadata_keys K = keys ++ ["dHKL"%string].
Proof.
  unfold guess_keys. rewrite !get_first_key_of_type_filter.
  destruct (List.filter is_J ds) as [|[k t] l] eqn:Hf; [discriminate|].
  cbn [Py.bind fst].
  assert (HJ : In (k, "J"%string) ds).
  { assert (Hin : In (k, t) (List.filter is_J ds)) by (rewrite Hf; left; auto).
    apply filter_In in Hin as (Hin & Ht).
    unfold is_J in Ht. apply String.eqb_eq in Ht. simpl in Ht. subst t.
    exact Hin. }
  destruct (has_column ds (String.append "Sig" k)) eqn:Hsig;
    [|destruct (has_column ds (String.append "SIG" k)) eqn:HSIG];
    cbn [Py.bind]; destruct file_id as [column|]; cbn [Py.bind];
    try discriminate; intros H; injection H as <-; cbn;
    intros H1 H2; try congruence; eauto.
Qed.

Lemma guess_keys_sigma_fallback_witness :
  sigma_intensity_key
    {| intensity_key := "I"; sigma_intensity_key := "I";
       metadata_keys := ["XDET"; "BATCH"; "file_id"; "dHKL"] |}
  = intensity_key
      {| intensity_key := "I"; sigma_intensity_key := "I";
         metadata_keys := ["XDET"; "BATCH"; "file_id"; "dHKL"] |}
  /\ In (intensity_key
           {| intensity_key := "I"; sigma_intensity_key := "I";
              metadata_keys := ["XDET"; "BATCH"; "file_id"; "dHKL"] |},
         "J"%string)
        [("H", "H"); ("I", "J"); ("sigma", "Q"); ("XDET", "R"); ("BATCH", "B")]%string
  /\ exists keys,
       metadata_keys
         {| intensity_key := "I"; sigma_intensity_key := "I";
            metadata_keys := ["XDET"; "BATCH"; "file_id"; "dHKL"] |}
       = keys ++ ["dHKL"%string].
Proof.
  apply (guess_keys_sigma_fallback
           [("H", "H"); ("I", "J"); ("sigma", "Q"); ("XDET", "R"); ("BATCH", "B")]%string
           (Some [0; 1]%Z));
    reflexivity.
Defined.

(** X12: [set_merging_spacegroup] never sets a space group.  Called on an
    instance without argument it takes the instance for [sg] and raises
    ValueError; called on an instance with arguments it raises TypeError
    (its only parameter is taken by the instance); and however its one
    parameter is bound, the body ends in an exception, because [self] is
    not a name it can read. *)
Theorem set_merging_spacegroup_never_returns
    (builtins : Laue.namespace) (SpaceGroup : pyarg -> result pyarg) :
  builtins !! "self"%string = None ->
  call_set_merging_spacegroup builtins SpaceGroup [] = Raise (ValueError [])
  /\ (forall a args,
        call_set_merging_spacegroup builtins SpaceGroup (a :: args)
        = Raise TypeError)
  /\ (forall positional,
        is_ok (set_merging_spacegroup builtins SpaceGroup positional) = false).
Proof.
  intros Hb. split; [reflexivity|]. split; [reflexivity|].
  assert (Hself : Laue.load_global merge_globals builtins "self"
                  = Raise (NameError "self")).
  { unfold Laue.load_global.
    assert (Hg : merge_globals !! "self"%string = None)
      by (vm_compute; reflexivity).
    rewrite Hg, Hb. reflexivity. }
  intros [|sg [|? ?]]; [reflexivity| |reflexivity].
  unfold set_merging_spacegroup, set_merging_spacegroup_body.
  destruct sg; try reflexivity; rewrite Hself;
    try (destruct (SpaceGroup _)); reflexivity.
Qed.

Lemma set_merging_spacegroup_never_returns_witness :
  call_set_merging_spacegroup
    (list_to_map [("len", Laue.PyObject "len")]%string)
    (fun a => Ok (ArgSpaceGroup "P 1")) [] = Raise (ValueError [])
  /\ (forall a args,
        call_set_merging_spacegroup
          (list_to_map [("len", Laue.PyObject "len")]%string)
          (fun a => Ok (ArgSpaceGroup "P 1")) (a :: args)
        = Raise TypeError)
  /\ (forall positional,
        is_ok (set_merging_spacegroup
                 (list_to_map [("len", Laue.PyObject "len")]%string)
                 (fun a => Ok (ArgSpaceGroup "P 1")) positional) = false).
Proof.
  apply set_merging_spacegroup_never_returns. vm_compute. reflexivity.
Defined.

End MergeFacts.

(** ** Cross-validation splitters *)

Section ManagerFacts.
Import Py Manager.
Local Open Scope Z_scope.

Variable input_index : list (string * nat).
Variable is_laue : list ndarray -> bool.

(** *** The result monad *)

Lemma bind_Ok_inv {A B : Type} (c : result A) (k : A -> result B) (b : B) :
  Py.bind c k = Ok b -> exists a, c = Ok a /\ k a = Ok b.
Proof. destruct c as [a|e]; simpl; intros H; [eauto | discriminate]. Qed.

Lemma bind_not_ValueError {A B : Type} (c : result A) (k : A -> result B) :
  is_ValueError c = false ->
  (forall a, c = Ok a -> is_ValueError (k a) = false) ->
  is_ValueError (Py.bind c k) = false.
Proof. destruct c as [a|e]; simpl; auto. Qed.

Lemma mapM_length {A B : Type} (f : A -> result B) (l : list A) (l' : list B) :
  mapM f l = Ok l' -> length l' = length l.
Proof.
  revert l'; induction l as [|a l IH]; simpl; intros l' H.
  - injection H as <-. reflexivity.
  - apply bind_Ok_inv in H as (b & _ & H).
    apply bind_Ok_inv in H as (bs & Hbs & H).
    injection H as <-. simpl. f_equal. auto.
Qed.

Lemma mapM_not_ValueError {A B : Type} (f : A -> result B) (l : list A) :
  (forall a, In a l -> is_ValueError (f a) = false) ->
  is_ValueError (mapM f l) = false.
Proof.
  induction l as [|a l IH]; simpl; intros H; [reflexivity|].
  apply bind_not_ValueError; [auto|]. intros b _.
  apply bind_not_ValueError; [auto|]. reflexivity.
Qed.

Lemma mapM_Ok {A B : Type} (f : A -> result B) (g : A -> B) (l : list A) :
  (forall a, In a l -> f a = Ok (g a)) -> mapM f l = Ok (map g l).
Proof.
  induction l as [|a l IH]; simpl; intros H; [reflexivity|].
  rewrite (H a) by auto. simpl. rewrite IH by auto. reflexivity.
Qed.

(** *** numpy helpers *)

Lemma np_index_not_ValueError {A : Type} (a : list A) (i : Z) :
  is_ValueError (np_index a i) = false.
Proof.
  unfold np_index.
  destruct (_ && _); [|reflexivity]. destruct (nth_error _ _); reflexivity.
Qed.

Lemma take_not_ValueError {A : Type} (a : list A) (ix : list Z) :
  is_ValueError (take a ix) = false.
Proof.
  apply mapM_not_ValueError. intros; apply np_index_not_ValueError.
Qed.

Lemma bool_index_same_length {A : Type} (mask : list bool) (a : list A) :
  length mask = length a -> bool_index mask a = Ok (select mask a).
Proof.
  intros H. unfold bool_index. rewrite H, Nat.eqb_refl, orb_true_r.
  reflexivity.
Qed.

Lemma bool_index_not_ValueError {A : Type} (mask : list bool) (a : list A) :
  is_ValueError (bool_index mask a) = false.
Proof. unfold bool_index. destruct (_ || _)%bool; reflexivity. Qed.

Lemma int_column_not_ValueError (a : ndarray) :
  is_ValueError (int_column a) = false.
Proof.
  apply mapM_not_ValueError. intros [z|x] _; reflexivity.
Qed.

Lemma get_input_by_name_not_ValueError inputs name :
  is_ValueError (get_input_by_name input_index inputs name) = false.
Proof.
  unfold get_input_by_name.
  destruct (List.find _ _); [|reflexivity].
  destruct (nth_error _ _); reflexivity.
Qed.

Lemma get_harmonic_id_not_ValueError inputs :
  is_ValueError (get_harmonic_id input_index inputs) = false.
Proof.
  apply bind_not_ValueError; [apply get_input_by_name_not_ValueError|].
  intros; apply int_column_not_ValueError.
Qed.

Lemma insert_unique_In z y l : In y (insert_unique z l) <-> y = z \/ In y l.
Proof.
  induction l as [|x l IH]; simpl.
  - intuition.
  - destruct (z <? x) eqn:Hlt; simpl.
    + intuition.
    + destruct (z =? x) eqn:Heq; simpl.
      * apply Z.eqb_eq in Heq. subst. intuition.
      * rewrite IH. intuition.
Qed.

Lemma np_unique_In z l : In z (np_unique l) <-> In z l.
Proof.
  induction l as [|x l IH]; simpl; [reflexivity|].
  rewrite insert_unique_In, IH. intuition.
Qed.

Lemma insert_unique_length z l :
  (length (insert_unique z l) <= S (length l))%nat.
Proof.
  induction l as [|x l IH]; simpl; [lia|].
  destruct (z <? x); simpl; [lia|]. destruct (z =? x); simpl; lia.
Qed.

Lemma np_unique_length l : (length (np_unique l) <= length l)%nat.
Proof.
  induction l as [|x l IH]; simpl; [lia|].
  pose proof (insert_unique_length x (np_unique l)). lia.
Qed.

Lemma intersect1d_In z a b : In z (intersect1d a b) <-> In z a /\ In z b.
Proof.
  unfold intersect1d. rewrite filter_In, existsb_exists.
  split.
  - intros (Ha & y & Hy & Heq). apply Z.eqb_eq in Heq. subst y.
    split; apply np_unique_In; assumption.
  - intros (Ha & Hb). split; [apply np_unique_In; exact Ha|]. exists z.
    split; [apply np_unique_In; exact Hb | apply Z.eqb_refl].
Qed.

Lemma nonempty_iff_In {A : Type} (l : list A) :
  (0 <? length l)%nat = true <-> exists x, In x l.
Proof.
  destruct l as [|x l]; simpl.
  - split; [discriminate | intros (x & [])].
  - split; [eauto | reflexivity].
Qed.

(** *** [split] raises no ValueError *)

Lemma split_entry_not_ValueError sel idx i v :
  is_ValueError
    (split_entry input_index (np_unique sel) (map (index_of (np_unique sel)) sel)
       idx i v) = false.
Proof.
  unfold split_entry.
  destruct (_ || _)%bool.
  - apply bind_not_ValueError; [apply take_not_ValueError|].
    intros v' Hv'. apply mapM_length in Hv'. unfold pad_ones.
    rewrite length_map, Hv'.
    pose proof (np_unique_length sel).
    destruct (_ <? 0) eqn:Hneg; [apply Z.ltb_lt in Hneg; lia | reflexivity].
  - destruct (bool_decide _); [reflexivity | apply bool_index_not_ValueError].
Qed.

Lemma split_not_ValueError inputs idx :
  is_ValueError (split input_index inputs idx) = false.
Proof.
  unfold split.
  apply bind_not_ValueError; [apply get_harmonic_id_not_ValueError|].
  intros hid _.
  apply bind_not_ValueError; [apply bool_index_not_ValueError|].
  intros sel _. unfold np_unique_inverse.
  apply mapM_not_ValueError. intros; apply split_entry_not_ValueError.
Qed.

(** C6: with a mask as long as the harmonic-id column,
    [split_laue_data_by_mask] raises ValueError exactly when some harmonic
    id has rows on both sides of the mask; when it raises there is no
    partition, and the manager (its [inputs]) is as before the call. *)
Theorem split_laue_data_by_mask_ValueError_iff
    (self : DataManager) (test_idx : list bool) (harmonic_id : list Z) :
  get_harmonic_id input_index (inputs self) = Ok harmonic_id ->
  length test_idx = length harmonic_id ->
  (is_ValueError (split_laue_data_by_mask input_index self test_idx) = true
   <-> exists h, In h (select test_idx harmonic_id)
                 /\ In h (select (map negb test_idx) harmonic_id))
  /\ (is_ValueError (split_laue_data_by_mask input_index self test_idx) = true ->
      (forall p, split_laue_data_by_mask input_index self test_idx <> Ok p)
      /\ snd (call_method
                (fun s => split_laue_data_by_mask input_index s test_idx) self)
         = self).
Proof.
  intros Hh Hlen.
  assert (Hiff :
    is_ValueError (split_laue_data_by_mask input_index self test_idx) = true
    <-> exists h, In h (select test_idx harmonic_id)
                  /\ In h (select (map negb test_idx) harmonic_id)).
  { unfold split_laue_data_by_mask. rewrite Hh. simpl.
    rewrite !bool_index_same_length by (rewrite ?length_map; exact Hlen).
    simpl.
    destruct (0 <? length _)%nat eqn:Hne.
    - simpl. split; [intros _ | reflexivity].
      apply nonempty_iff_In in Hne as (h & Hin).
      apply intersect1d_In in Hin. eauto.
    - split.
      + intros HVE. exfalso.
        assert (HF : is_ValueError
          (let* train := split input_index (inputs self) (map negb test_idx) in
           let* test := split input_index (inputs self) test_idx in
           Ok (train, test)) = false).
        { apply bind_not_ValueError; [apply split_not_ValueError|]. intros.
          apply bind_not_ValueError; [apply split_not_ValueError|]. reflexivity. }
        congruence.
      + intros (h & Hin). exfalso.
        assert (Htrue : (0 <? length (intersect1d (select test_idx harmonic_id)
                       (select (map negb test_idx) harmonic_id)))%nat = true).
        { apply nonempty_iff_In. exists h. apply intersect1d_In. exact Hin. }
        congruence. }
  split; [exact Hiff|]. intros HVE. split; [|reflexivity].
  intros p Hp. rewrite Hp in HVE. discriminate.
Qed.

(** *** [np.unique] and its inverse *)

Lemma insert_unique_sorted z l :
  StronglySorted Z.lt l -> StronglySorted Z.lt (insert_unique z l).
Proof.
  induction l as [|x l IH]; simpl; intros Hs.
  - repeat constructor.
  - inversion Hs as [|? ? Hl Hx]; subst.
    destruct (z <? x) eqn:Hlt.
    + apply Z.ltb_lt in Hlt. constructor; [exact Hs|].
      constructor; [exact Hlt|].
      eapply List.Forall_impl; [|exact Hx]. simpl. intros; lia.
    + destruct (z =? x) eqn:Heq; [exact Hs|].
      apply Z.ltb_ge in Hlt. apply Z.eqb_neq in Heq.
      constructor; [auto|].
      apply List.Forall_forall. intros y Hy.
      apply insert_unique_In in Hy as [-> | Hy]; [lia|].
      rewrite List.Forall_forall in Hx. auto.
Qed.

Lemma np_unique_sorted l : StronglySorted Z.lt (np_unique l).
Proof.
  induction l as [|x l IH]; simpl; [constructor|].
  apply insert_unique_sorted, IH.
Qed.

Lemma index_of_nth uni h :
  In h uni -> nth_error uni (index_of uni h) = Some h.
Proof.
  induction uni as [|y uni IH]; simpl; [intros []|]. intros Hin.
  destruct (h =? y) eqn:Heq.
  - apply Z.eqb_eq in Heq. subst. reflexivity.
  - apply Z.eqb_neq in Heq. simpl. apply IH.
    destruct Hin as [->|Hin]; [contradiction | exact Hin].
Qed.

Lemma sorted_nth_lt uni i j a b :
  StronglySorted Z.lt uni -> (i < j)%nat ->
  nth_error uni i = Some a -> nth_error uni j = Some b -> a < b.
Proof.
  intros Hs. revert i j. induction Hs as [|x l Hs IH Hx]; intros i j Hij Ha Hb.
  - destruct i; discriminate.
  - destruct j as [|j]; [lia|]. simpl in Hb.
    destruct i as [|i]; simpl in Ha.
    + injection Ha as <-. rewrite List.Forall_forall in Hx.
      apply Hx. eapply nth_error_In; eauto.
    + apply (IH i j); auto; lia.
Qed.

Lemma relabel_by_index_of sel :
  relabel_spec sel (index_of (np_unique sel)).
Proof.
  unfold relabel_spec. set (uni := np_unique sel).
  assert (Hs : StronglySorted Z.lt uni) by apply np_unique_sorted.
  assert (Hin : forall h, In h sel -> nth_error uni (index_of uni h) = Some h).
  { intros h Hh. apply index_of_nth, np_unique_In, Hh. }
  split.
  - intros k; split.
    + intros (h & Hh & <-). apply nth_error_Some. rewrite (Hin h Hh). discriminate.
    + intros Hk. destruct (nth_error uni k) as [h|] eqn:Hnth.
      * assert (Hh : In h sel).
        { apply np_unique_In. eapply nth_error_In; eauto. }
        exists h. split; [exact Hh|].
        destruct (lt_eq_lt_dec (index_of uni h) k) as [[Hlt|Heq]|Hgt]; auto.
        -- pose proof (sorted_nth_lt _ _ _ _ _ Hs Hlt (Hin h Hh) Hnth). lia.
        -- pose proof (sorted_nth_lt _ _ _ _ _ Hs Hgt Hnth (Hin h Hh)). lia.
      * apply nth_error_None in Hnth. lia.
  - intros h h' Hh Hh'.
    pose proof (Hin h Hh) as Hn. pose proof (Hin h' Hh') as Hn'.
    assert (Hmono : forall a b i j, nth_error uni i = Some a ->
              nth_error uni j = Some b -> (i < j)%nat -> a < b).
    { intros; eapply sorted_nth_lt; eauto. }
    destruct (lt_eq_lt_dec (index_of uni h) (index_of uni h')) as [[Hlt|Heq]|Hgt].
    + pose proof (Hmono _ _ _ _ Hn Hn' Hlt). split; split; intros; lia.
    + rewrite Heq in Hn. assert (h = h') by congruence.
      split; split; intros; lia.
    + pose proof (Hmono _ _ _ _ Hn' Hn Hgt). split; split; intros; lia.
Qed.

(** *** Indexing *)

Lemma mapM_nth {A B : Type} (f : A -> result B) l l' k a :
  mapM f l = Ok l' -> nth_error l k = Some a ->
  exists b, nth_error l' k = Some b /\ f a = Ok b.
Proof.
  revert l' k; induction l as [|x l IH]; intros l' k H Hk.
  - destruct k; discriminate.
  - simpl in H. apply bind_Ok_inv in H as (b & Hb & H).
    apply bind_Ok_inv in H as (bs & Hbs & H). injection H as <-.
    destruct k as [|k]; simpl in *.
    + injection Hk as <-. eauto.
    + eauto.
Qed.

Lemma mapM_Ok_exists {A B : Type} (f : A -> result B) l :
  (forall a, In a l -> exists b, f a = Ok b) -> exists l', mapM f l = Ok l'.
Proof.
  induction l as [|x l IH]; simpl; intros H; [eauto|].
  destruct (H x) as (b & Hb); [auto|]. rewrite Hb. simpl.
  destruct IH as (l' & Hl'); [auto|]. rewrite Hl'. simpl. eauto.
Qed.

Lemma np_index_Ok {A : Type} (a : list A) (i : Z) :
  0 <= i < Z.of_nat (length a) ->
  exists x, np_index a i = Ok x /\ nth_error a (Z.to_nat i) = Some x.
Proof.
  intros Hi. unfold np_index.
  destruct (i <? 0) eqn:Hneg; [apply Z.ltb_lt in Hneg; lia|].
  replace ((0 <=? i) && (i <? Z.of_nat (length a)))%bool with true
    by (symmetry; apply andb_true_iff; split; [apply Z.leb_le | apply Z.ltb_lt]; lia).
  destruct (nth_error a (Z.to_nat i)) as [x|] eqn:Hx; [eauto|].
  apply nth_error_None in Hx. lia.
Qed.

Lemma select_In {A : Type} (mask : list bool) (a : list A) x :
  In x (select mask a) -> In x a.
Proof.
  unfold select. intros H. apply in_map_iff in H as ((b & y) & <- & H).
  apply filter_In in H as (H & _). eapply in_combine_r; eauto.
Qed.

Lemma select_length_le {A : Type} (mask : list bool) (a : list A) :
  (length (select mask a) <= length a)%nat.
Proof.
  unfold select. rewrite length_map.
  etransitivity; [apply filter_length_le|].
  rewrite length_combine. lia.
Qed.

(** *** [split] on well-formed Laue inputs *)

Lemma wf_laue_rows inputs hid v :
  wf_laue inputs hid = true -> In v inputs -> length v = length hid.
Proof.
  unfold wf_laue. intros H Hv. apply andb_true_iff in H as (H & _).
  rewrite forallb_forall in H. apply Nat.eqb_eq. auto.
Qed.

Lemma wf_laue_ids inputs hid h :
  wf_laue inputs hid = true -> In h hid -> 0 <= h < Z.of_nat (length hid).
Proof.
  unfold wf_laue. intros H Hh. apply andb_true_iff in H as (_ & H).
  rewrite forallb_forall in H. specialize (H h Hh).
  apply andb_true_iff in H as (H1 & H2).
  apply Z.leb_le in H1. apply Z.ltb_lt in H2. lia.
Qed.

Lemma split_entry_spec hid idx i v :
  length v = length hid -> length idx = length hid ->
  (forall h, In h hid -> 0 <= h < Z.of_nat (length hid)) ->
  let sel := select idx hid in
  exists v',
    split_entry input_index (np_unique sel) (map (index_of (np_unique sel)) sel)
      idx i v = Ok v'
    /\ entry_spec input_index idx sel i v v'.
Proof.
  intros Hv Hidx Hids sel. unfold split_entry, entry_spec.
  set (uni := np_unique sel).
  destruct (_ || _)%bool.
  - destruct (mapM_Ok_exists (np_index v) uni) as (l & Hl).
    { intros h Hh. apply np_unique_In, select_In in Hh.
      destruct (np_index_Ok v h) as (x & Hx & _); [rewrite Hv; auto | eauto]. }
    unfold take. rewrite Hl. simpl.
    pose proof (mapM_length _ _ _ Hl) as Hlen.
    pose proof (np_unique_length sel) as Hle. fold uni in Hle.
    unfold pad_ones. rewrite length_map, Hlen.
    destruct (_ <? 0) eqn:Hneg; [apply Z.ltb_lt in Hneg; lia|].
    eexists; split; [reflexivity|]. split; [|split].
    + rewrite length_app, repeat_length, Hlen. lia.
    + intros k h Hk. destruct (mapM_nth _ _ _ _ _ Hl Hk) as (row & Hrow & Hix).
      exists row. split; [|exact Hix].
      rewrite nth_error_app1; [exact Hrow|].
      apply nth_error_Some. rewrite Hrow. discriminate.
    + intros k row Hk Hrow.
      rewrite nth_error_app2 in Hrow by lia.
      apply nth_error_In, repeat_spec in Hrow. subst row.
      unfold ones_row. apply List.Forall_forall. intros c Hc.
      apply repeat_spec in Hc. exact Hc.
  - destruct (bool_decide _).
    + eexists; split; [reflexivity|]. rewrite map_map. reflexivity.
    + rewrite bool_index_same_length by congruence. eauto.
Qed.

Lemma mapM_enumerate_spec {A B : Type} (f : nat * A -> result B)
    (R : nat -> A -> B -> Prop) (l : list A) :
  forall i0,
    (forall i a, nth_error l i = Some a ->
       exists b, f ((i0 + i)%nat, a) = Ok b /\ R (i0 + i)%nat a b) ->
    exists l', mapM f (enumerate_from i0 l) = Ok l' /\ length l' = length l /\
      forall i a, nth_error l i = Some a ->
        exists b, nth_error l' i = Some b /\ R (i0 + i)%nat a b.
Proof.
  induction l as [|x l IH]; intros i0 H; simpl.
  - exists []. repeat split. intros [|i] a Ha; discriminate.
  - destruct (H 0%nat x eq_refl) as (b & Hb & HR).
    rewrite Nat.add_0_r in Hb, HR. rewrite Hb. simpl.
    destruct (IH (S i0)) as (l' & Hl' & Hlen & Hnth).
    { intros i a Ha. destruct (H (S i) a Ha) as (b' & Hb' & HR').
      rewrite Nat.add_succ_r in Hb', HR'. eauto. }
    rewrite Hl'. simpl. exists (b :: l'). split; [reflexivity|].
    split; [simpl; congruence|].
    intros [|i] a Ha; simpl in *.
    + injection Ha as <-. rewrite Nat.add_0_r. eauto.
    + destruct (Hnth i a Ha) as (b' & Hb' & HR').
      rewrite Nat.add_succ_r. eauto.
Qed.

Lemma split_spec inputs hid idx :
  get_harmonic_id input_index inputs = Ok hid ->
  wf_laue inputs hid = true ->
  length idx = length hid ->
  exists part, split input_index inputs idx = Ok part
               /\ partition_spec input_index inputs hid idx part.
Proof.
  intros Hh Hwf Hidx. unfold split. rewrite Hh. simpl.
  rewrite bool_index_same_length by exact Hidx. simpl.
  destruct (mapM_enumerate_spec
              (fun iv => split_entry input_index (np_unique (select idx hid))
                           (map (index_of (np_unique (select idx hid)))
                                (select idx hid)) idx (fst iv) (snd iv))
              (entry_spec input_index idx (select idx hid)) inputs 0%nat)
    as (part & Hpart & Hlen & Hnth).
  { intros i v Hv. simpl.
    apply split_entry_spec; auto.
    - eapply wf_laue_rows; eauto. eapply nth_error_In; eauto.
    - intros h Hin. eapply wf_laue_ids; eauto. }
  exists part. split; [exact Hpart|].
  split; [exact Hlen|]. split; [apply relabel_by_index_of|]. exact Hnth.
Qed.

Lemma split_laue_data_by_mask_Ok
    (self : DataManager) (test_idx : list bool) (harmonic_id : list Z) :
  get_harmonic_id input_index (inputs self) = Ok harmonic_id ->
  wf_laue (inputs self) harmonic_id = true ->
  length test_idx = length harmonic_id ->
  keeps_groups_whole test_idx harmonic_id ->
  exists train test,
    split_laue_data_by_mask input_index self test_idx = Ok (train, test)
    /\ partition_spec input_index (inputs self) harmonic_id
         (map negb test_idx) train
    /\ partition_spec input_index (inputs self) harmonic_id test_idx test.
Proof.
  intros Hh Hwf Hlen Hwhole.
  destruct (split_spec (inputs self) harmonic_id (map negb test_idx) Hh Hwf)
    as (train & Htrain & Hspec_train); [rewrite length_map; exact Hlen|].
  destruct (split_spec (inputs self) harmonic_id test_idx Hh Hwf Hlen)
    as (test & Htest & Hspec_test).
  exists train, test. split; [|split; assumption].
  unfold split_laue_data_by_mask. rewrite Hh. simpl.
  rewrite !bool_index_same_length by (rewrite ?length_map; exact Hlen).
  simpl.
  destruct (0 <? length _)%nat eqn:Hne.
  - apply nonempty_iff_In in Hne as (h & Hin).
    apply intersect1d_In in Hin. destruct (Hwhole h Hin).
  - rewrite Htrain, Htest. reflexivity.
Qed.

(** *** Masks gathered from one draw per id *)

Lemma select_In_nth {A : Type} (mask : list bool) (a : list A) x :
  In x (select mask a) <->
  exists k, nth_error mask k = Some true /\ nth_error a k = Some x.
Proof.
  unfold select. revert a. induction mask as [|b mask IH]; intros a.
  - simpl. split; [intros [] | intros ([|k] & H & _); discriminate].
  - destruct a as [|y a].
    + simpl. split; [intros [] | intros ([|k] & _ & H); discriminate].
    + cbn [combine List.filter fst]. destruct b; cbn [map snd In].
      * rewrite IH. split.
        -- intros [-> | (k & Hk)]; [exists 0%nat; auto | exists (S k); auto].
        -- intros ([|k] & Hm & Ha); simpl in *.
           ++ left. congruence.
           ++ right. eauto.
      * rewrite IH. split.
        -- intros (k & Hk). exists (S k). auto.
        -- intros ([|k] & Hm & Ha); simpl in *; [discriminate | eauto].
Qed.

Lemma take_gather {A : Type} (a : list A) (ix : list Z) :
  (forall h, In h ix -> 0 <= h < Z.of_nat (length a)) ->
  exists l, take a ix = Ok l /\ length l = length ix /\
    forall k h, nth_error ix k = Some h ->
      nth_error l k = nth_error a (Z.to_nat h).
Proof.
  intros Hix.
  destruct (mapM_Ok_exists (np_index a) ix) as (l & Hl).
  { intros h Hh. destruct (np_index_Ok a h (Hix h Hh)) as (x & Hx & _). eauto. }
  exists l. split; [exact Hl|]. split; [eapply mapM_length; eauto|].
  intros k h Hk. destruct (mapM_nth _ _ _ _ _ Hl Hk) as (x & Hx & Hix').
  destruct (np_index_Ok a h) as (x' & Hx' & Hnth);
    [apply Hix; eapply nth_error_In; eauto|].
  congruence.
Qed.

Lemma gathered_mask_keeps_groups_whole (by_id mask : list bool) (ids : list Z) :
  (forall k h, nth_error ids k = Some h ->
     nth_error mask k = nth_error by_id (Z.to_nat h)) ->
  keeps_groups_whole mask ids.
Proof.
  intros Hg h (Htest & Htrain).
  apply select_In_nth in Htest as (k1 & Hm1 & Hk1).
  apply select_In_nth in Htrain as (k2 & Hm2 & Hk2).
  rewrite nth_error_map in Hm2.
  rewrite (Hg _ _ Hk1) in Hm1.
  destruct (nth_error mask k2) as [b|] eqn:Hb; [|discriminate].
  rewrite (Hg _ _ Hk2) in Hb.
  rewrite Hm1 in Hb. injection Hb as <-. discriminate.
Qed.

Lemma fold_left_max_spec (l : list Z) (z : Z) :
  z <= fold_left Z.max l z
  /\ (forall h, In h l -> h <= fold_left Z.max l z)
  /\ In (fold_left Z.max l z) (z :: l).
Proof.
  revert z; induction l as [|x l IH]; intros z; simpl.
  - split; [lia|]. split; [intros h []| auto].
  - destruct (IH (Z.max z x)) as (H1 & H2 & H3).
    split; [lia|]. split.
    + intros h [<- | Hh]; [lia | auto].
    + destruct H3 as [H3 | H3]; [|auto].
      rewrite <- H3. destruct (Z.max_spec z x) as [(_ & ->) | (_ & ->)]; auto.
Qed.

Lemma np_max_spec (l : list Z) :
  l <> [] ->
  exists top, np_max l = Ok top /\ In top l /\ forall h, In h l -> h <= top.
Proof.
  destruct l as [|z l]; [congruence|]. intros _.
  destruct (fold_left_max_spec l z) as (H1 & H2 & H3).
  exists (fold_left Z.max l z). split; [reflexivity|]. split; [exact H3|].
  intros h [<- | Hh]; auto.
Qed.

Lemma random_le_spec rng n fraction :
  0 <= n ->
  exists draws, random_le rng n fraction = Ok draws
                /\ length draws = Z.to_nat n.
Proof.
  intros Hn. unfold random_le.
  destruct (n <? 0) eqn:Hneg; [apply Z.ltb_lt in Hneg; lia|].
  eexists; split; [reflexivity|]. rewrite length_map, length_seq. reflexivity.
Qed.

(** C7: on well-formed, non-empty Laue inputs every run of
    [split_data_by_refl] (whatever the draws and the test fraction) returns
    a train and a test partition made with a mask under which no harmonic
    id has rows on both sides. *)
Theorem split_data_by_refl_keeps_groups_whole
    (self : DataManager) (rng : nat -> Q) (test_fraction : Q)
    (harmonic_id : list Z) :
  is_laue (inputs self) = true ->
  get_harmonic_id input_index (inputs self) = Ok harmonic_id ->
  wf_laue (inputs self) harmonic_id = true ->
  harmonic_id <> [] ->
  exists test_idx train test,
    refl_test_idx rng test_fraction harmonic_id = Ok test_idx
    /\ length test_idx = length harmonic_id
    /\ split_data_by_refl input_index is_laue self rng test_fraction
       = Ok (train, test)
    /\ keeps_groups_whole test_idx harmonic_id
    /\ intersect1d (select (map negb test_idx) harmonic_id)
                   (select test_idx harmonic_id) = []
    /\ partition_spec input_index (inputs self) harmonic_id
         (map negb test_idx) train
    /\ partition_spec input_index (inputs self) harmonic_id test_idx test.
Proof.
  intros Hlaue Hh Hwf Hne.
  destruct (np_max_spec harmonic_id Hne) as (top & Htop & Hin & Hmax).
  pose proof (wf_laue_ids _ _ _ Hwf Hin) as Htop0.
  destruct (random_le_spec rng (top + 1) test_fraction) as (by_id & Hby & Hlen);
    [lia|].
  destruct (take_gather by_id harmonic_id) as (test_idx & Htake & Hl & Hg).
  { intros h Hh'. pose proof (wf_laue_ids _ _ _ Hwf Hh'). specialize (Hmax h Hh').
    rewrite Hlen. lia. }
  assert (Hmask : refl_test_idx rng test_fraction harmonic_id = Ok test_idx).
  { unfold refl_test_idx. rewrite Htop. simpl. rewrite Hby. simpl. exact Htake. }
  assert (Hwhole : keeps_groups_whole test_idx harmonic_id)
    by (eapply gathered_mask_keeps_groups_whole; eauto).
  destruct (split_laue_data_by_mask_Ok self test_idx harmonic_id
              Hh Hwf Hl Hwhole) as (train & test & Hsplit & Htr & Hte).
  exists test_idx, train, test.
  split; [exact Hmask|]. split; [exact Hl|]. split.
  { unfold split_data_by_refl. rewrite Hlaue, Hh. simpl. rewrite Hmask. simpl.
    exact Hsplit. }
  split; [exact Hwhole|]. split; [|split; assumption].
  destruct (intersect1d _ _) as [|h l] eqn:Hi; [reflexivity|]. exfalso.
  assert (Hhin : In h (h :: l)) by (left; reflexivity).
  rewrite <- Hi in Hhin. apply intersect1d_In in Hhin.
  apply (Hwhole h). tauto.
Qed.

(** *** Splitting by image *)



(** With a single image the fix flips the only draw, so every row gets the
    same side whatever was drawn. *)
Lemma image_test_idx_single_image (rng : nat -> Q) (test_fraction : Q) (n : nat) :
  exists b, image_test_idx rng test_fraction (repeat 0 (S n))
            = Ok (repeat b (S n)).
Proof.
  assert (Hmax : forall k, fold_left Z.max (repeat 0 k) 0 = 0)
    by (induction k; simpl; auto).
  assert (Htake : forall (b : bool) k, take [b] (repeat 0 k) = Ok (repeat b k)).
  { intros b k. unfold take. induction k as [|k IH]; simpl; [reflexivity|].
    rewrite IH. reflexivity. }
  unfold image_test_idx. cbn [np_max repeat]. rewrite Hmax. simpl.
  destruct (Qle_bool (rng 0%nat) test_fraction); simpl.
  - exists false. apply (Htake false (S n)).
  - exists true. apply (Htake true (S n)).
Qed.

(** *** Monochromatic splits *)

Lemma select_negb_Permutation {A : Type} (mask : list bool) :
  forall a : list A, length mask = length a ->
    Permutation (select mask a ++ select (map negb mask) a) a.
Proof.
  unfold select. induction mask as [|b mask IH]; intros [|x a] Hlen;
    try discriminate; [constructor|].
  injection Hlen as Hlen. specialize (IH a Hlen).
  destruct b; cbn [map negb combine List.filter fst snd app].
  - constructor. exact IH.
  - apply Permutation_sym, Permutation_cons_app, Permutation_sym. exact IH.
Qed.

Lemma mapM_bool_index_Ok {A : Type} (mask : list bool) (l : list (list A)) :
  List.Forall (fun v => length v = length mask) l ->
  mapM (bool_index mask) l = Ok (map (select mask) l).
Proof.
  intros Hl. apply mapM_Ok. intros v Hv. apply bool_index_same_length.
  rewrite List.Forall_forall in Hl. symmetry. exact (Hl v Hv).
Qed.

Lemma mapM_bool_index_nil {A : Type} (l : list (list A)) :
  mapM (bool_index []) l = Ok (map (fun _ => []) l).
Proof. apply mapM_Ok. intros v _. reflexivity. Qed.

Lemma mapM_bool_index_Raise {A : Type} (mask : list bool) (l : list (list A)) :
  mask <> [] ->
  (exists v, In v l /\ length v <> length mask) ->
  mapM (bool_index mask) l = Raise IndexError.
Proof.
  intros Hmask.
  assert (H0 : (length mask =? 0)%nat = false).
  { apply Nat.eqb_neq. destruct mask; [congruence | discriminate]. }
  induction l as [|x l IH]; intros (v & Hin & Hne); [destruct Hin|].
  cbn [mapM]. unfold bool_index at 1. rewrite H0. cbn [orb].
  destruct (length mask =? length x)%nat eqn:Heq; [|reflexivity].
  apply Nat.eqb_eq in Heq. cbn [Py.bind].
  rewrite IH; [reflexivity|].
  destruct Hin as [-> | Hin]; [congruence | eauto].
Qed.

(** X13: with a mask as long as every input, [split_mono_data_by_mask]
    returns each input sliced by the negated mask (train) and by the mask
    (test), and every row of every input lands on exactly one side: test
    rows followed by train rows are a rearrangement of the input rows. *)
Theorem split_mono_data_by_mask_partitions
    (self : DataManager) (test_idx : list bool) :
  List.Forall (fun v : ndarray => length v = length test_idx) (inputs self) ->
  split_mono_data_by_mask self test_idx
  = Ok (map (select (map negb test_idx)) (inputs self),
        map (select test_idx) (inputs self))
  /\ List.Forall
       (fun v : ndarray =>
          Permutation (select test_idx v ++ select (map negb test_idx) v) v)
       (inputs self).
Proof.
  intros Hl. split.
  - unfold split_mono_data_by_mask.
    rewrite mapM_bool_index_Ok by exact Hl. cbn [Py.bind].
    rewrite mapM_bool_index_Ok; [reflexivity|].
    eapply List.Forall_impl; [|exact Hl]. intros v Hv. cbv beta in *.
    rewrite length_map. exact Hv.
  - eapply List.Forall_impl; [|exact Hl]. intros v Hv. cbv beta in *.
    apply select_negb_Permutation. congruence.
Qed.

Lemma split_mono_data_by_mask_partitions_witness :
  split_mono_data_by_mask example_one_image [true; false]
  = Ok (map (select (map negb [true; false])) (inputs example_one_image),
        map (select [true; false]) (inputs example_one_image))
  /\ List.Forall
       (fun v : ndarray =>
          Permutation (select [true; false] v
                       ++ select (map negb [true; false]) v) v)
       (inputs example_one_image).
Proof.
  apply (split_mono_data_by_mask_partitions example_one_image [true; false]).
  repeat constructor.
Defined.

(** X14: [split_mono_data_by_mask] raises exactly when the mask has at least
    one entry and some input has a number of rows different from the length
    of the mask, and the error is then IndexError; otherwise it returns the
    two partitions.  A mask without entries is accepted whatever the row
    counts are, and both partitions then hold no row of any input. *)
Theorem split_mono_data_by_mask_IndexError_iff
    (self : DataManager) (test_idx : list bool) :
  (split_mono_data_by_mask self test_idx = Raise IndexError
   <-> test_idx <> []
       /\ exists v, In v (inputs self) /\ length v <> length test_idx)
  /\ (is_ok (split_mono_data_by_mask self test_idx) = false
      <-> split_mono_data_by_mask self test_idx = Raise IndexError)
  /\ split_mono_data_by_mask self []
     = Ok (map (fun _ => []) (inputs self), map (fun _ => []) (inputs self)).
Proof.
  assert (Hnil : split_mono_data_by_mask self []
                 = Ok (map (fun _ => []) (inputs self),
                       map (fun _ => []) (inputs self))).
  { unfold split_mono_data_by_mask. cbn [map].
    rewrite mapM_bool_index_nil. reflexivity. }
  destruct test_idx as [|b test_idx].
  { rewrite Hnil. repeat split; try discriminate.
    intros (Hne & _). congruence. }
  set (mask := b :: test_idx).
  assert (Hmask : mask <> []) by discriminate.
  destruct (forallb (fun v : ndarray => (length v =? length mask)%nat)
                    (inputs self)) eqn:Hall.
  - assert (Hl : List.Forall (fun v : ndarray => length v = length mask)
                             (inputs self)).
    { apply List.Forall_forall. intros v Hv.
      rewrite forallb_forall in Hall. apply Nat.eqb_eq. auto. }
    assert (Hok : split_mono_data_by_mask self mask
                  = Ok (map (select (map negb mask)) (inputs self),
                        map (select mask) (inputs self))).
    { unfold split_mono_data_by_mask.
      rewrite mapM_bool_index_Ok by exact Hl. cbn [Py.bind].
      rewrite mapM_bool_index_Ok; [reflexivity|].
      eapply List.Forall_impl; [|exact Hl]. intros v Hv. cbv beta in *.
      rewrite length_map. exact Hv. }
    rewrite Hok. split; [|split; [|exact Hnil]]; split; try discriminate.
    intros (_ & v & Hv & Hne). rewrite List.Forall_forall in Hl.
    specialize (Hl v Hv). contradiction.
  - assert (Hex : exists v, In v (inputs self) /\ length v <> length mask).
    { apply Bool.not_true_iff_false in Hall.
      destruct (List.Exists_dec
                  (fun v : ndarray => length v <> length mask)
                  (inputs self)) as [Hex | Hnex].
      - intros v. destruct (Nat.eq_dec (length v) (length mask)); auto.
      - apply List.Exists_exists in Hex. exact Hex.
      - exfalso. apply Hall. apply forallb_forall. intros v Hv.
        apply Nat.eqb_eq.
        destruct (Nat.eq_dec (length v) (length mask)) as [|Hne]; auto.
        exfalso. apply Hnex. apply List.Exists_exists. eauto. }
    assert (Hraise : split_mono_data_by_mask self mask = Raise IndexError).
    { unfold split_mono_data_by_mask.
      rewrite mapM_bool_index_Raise; [reflexivity | exact Hmask |].
      destruct Hex as (v & Hv & Hne). exists v. split; [exact Hv | congruence]. }
    rewrite Hraise. split; [|split; [|exact Hnil]]; split; auto.
Qed.

(** *** What an accepted mask is *)

Lemma enumerate_from_length {A : Type} (l : list A) :
  forall i, length (enumerate_from i l) = length l.
Proof. induction l as [|x l IH]; intros i; simpl; [|rewrite IH]; reflexivity. Qed.

Lemma split_length inputs idx part :
  split input_index inputs idx = Ok part -> length part = length inputs.
Proof.
  unfold split. intros H.
  apply bind_Ok_inv in H as (hid & _ & H).
  apply bind_Ok_inv in H as (sel & _ & H).
  unfold np_unique_inverse in H. apply mapM_length in H.
  rewrite enumerate_from_length in H. exact H.
Qed.

(** X15: [split_laue_data_by_mask] returns partitions only for a mask that
    has one entry per harmonic row, or no entry at all, and that keeps every
    harmonic group whole; the two partitions then have one entry per
    input. *)
Theorem split_laue_data_by_mask_Ok_only_if
    (self : DataManager) (test_idx : list bool) (train test : list ndarray) :
  split_laue_data_by_mask input_index self test_idx = Ok (train, test) ->
  exists harmonic_id,
    get_harmonic_id input_index (inputs self) = Ok harmonic_id
    /\ (test_idx = [] \/ length test_idx = length harmonic_id)
    /\ keeps_groups_whole test_idx harmonic_id
    /\ length train = length (inputs self)
    /\ length test = length (inputs self).
Proof.
  unfold split_laue_data_by_mask. intros H.
  apply bind_Ok_inv in H as (hid & Hh & H).
  apply bind_Ok_inv in H as (in_test & Hte & H).
  apply bind_Ok_inv in H as (in_train & Htr & H).
  unfold bool_index in Hte, Htr. rewrite length_map in Htr.
  destruct ((length test_idx =? 0) || (length test_idx =? length hid))%nat
    eqn:Hlen; [|discriminate].
  apply orb_true_iff in Hlen. rewrite !Nat.eqb_eq in Hlen.
  assert (Hlen' : test_idx = [] \/ length test_idx = length hid).
  { destruct Hlen as [H0 | Hl]; [left | right; exact Hl].
    destruct test_idx; [reflexivity | discriminate]. }
  clear Hlen. rename Hlen' into Hlen.
  injection Hte as <-. injection Htr as <-.
  destruct (0 <? length _)%nat eqn:Hne; [discriminate|].
  apply bind_Ok_inv in H as (train' & Htrain & H).
  apply bind_Ok_inv in H as (test' & Htest & H).
  injection H as <- <-.
  exists hid. split; [exact Hh|]. split; [exact Hlen|]. split.
  - intros h Hin. apply Bool.not_true_iff_false in Hne. apply Hne.
    apply nonempty_iff_In. exists h. apply intersect1d_In. exact Hin.
  - split; eapply split_length; eauto.
Qed.


Lemma sorted_NoDup (l : list Z) : StronglySorted Z.lt l -> List.NoDup l.
Proof.
  induction 1 as [|x l Hs IH Hx]; constructor; [|exact IH].
  intros Hin. rewrite List.Forall_forall in Hx. specialize (Hx x Hin). lia.
Qed.

(** X16: an accepted mask loses and duplicates nothing: the distinct
    harmonic ids [np.unique] finds on the two sides are as many as the
    distinct ids of the whole column, and the inverse arrays of the two
    sides have together one entry per harmonic row. *)
Theorem split_conserves_groups (test_idx : list bool) (harmonic_id : list Z) :
  length test_idx = length harmonic_id ->
  keeps_groups_whole test_idx harmonic_id ->
  let '(uni_test, inv_test) :=
    np_unique_inverse (select test_idx harmonic_id) in
  let '(uni_train, inv_train) :=
    np_unique_inverse (select (map negb test_idx) harmonic_id) in
  (length uni_test + length uni_train = length (np_unique harmonic_id))%nat
  /\ (length inv_test + length inv_train = length harmonic_id)%nat
  /\ forall h, In h uni_test -> ~ In h uni_train.
Proof.
  intros Hlen Hwhole. unfold np_unique_inverse.
  set (te := select test_idx harmonic_id).
  set (tr := select (map negb test_idx) harmonic_id).
  pose proof (select_negb_Permutation test_idx harmonic_id Hlen) as Hperm.
  fold te tr in Hperm.
  assert (Hdisj : forall h, In h (np_unique te) -> ~ In h (np_unique tr)).
  { intros h H1 H2. apply (Hwhole h).
    split; [exact (proj1 (np_unique_In h te) H1)
           | exact (proj1 (np_unique_In h tr) H2)]. }
  split; [|split; [|exact Hdisj]].
  - rewrite <- length_app. apply Permutation_length.
    apply Permutation.NoDup_Permutation.
    + apply List.NoDup_app; [apply sorted_NoDup, np_unique_sorted
                            | apply sorted_NoDup, np_unique_sorted
                            | exact Hdisj].
    + apply sorted_NoDup, np_unique_sorted.
    + intros h. rewrite in_app_iff, !np_unique_In.
      rewrite <- (Permutation_in' (eq_refl h) Hperm), in_app_iff. reflexivity.
  - rewrite !length_map, <- length_app. apply Permutation_length, Hperm.
Qed.

Lemma split_conserves_groups_witness :
  let '(uni_test, inv_test) :=
    np_unique_inverse (select [true; true; false; false; false] [0; 0; 1; 2; 2]) in
  let '(uni_train, inv_train) :=
    np_unique_inverse
      (select (map negb [true; true; false; false; false]) [0; 0; 1; 2; 2]) in
  (length uni_test + length uni_train = length (np_unique [0; 0; 1; 2; 2]%Z))%nat
  /\ (length inv_test + length inv_train = length [0; 0; 1; 2; 2]%Z)%nat
  /\ forall h, In h uni_test -> ~ In h uni_train.
Proof.
  apply (split_conserves_groups [true; true; false; false; false]
           [0; 0; 1; 2; 2]); [reflexivity|].
  intros h (H1 & H2). simpl in H1, H2. lia.
Defined.

(** *** A partition can be split again *)

Lemma select_length_same_mask {A B : Type} (mask : list bool) :
  forall (a : list A) (b : list B),
    length mask = length a -> length mask = length b ->
    length (select mask a) = length (select mask b).
Proof.
  unfold select. induction mask as [|m mask IH]; intros [|x a] [|y b] Ha Hb;
    try discriminate; [reflexivity|].
  injection Ha as Ha. injection Hb as Hb. specialize (IH a b Ha Hb).
  rewrite !length_map in *.
  cbn [combine List.filter fst]. destruct m; simpl; congruence.
Qed.

Lemma int_column_relabelled (f : Z -> nat) (sel : list Z) :
  int_column (map (fun h => [Int (Z.of_nat (f h))]) sel)
  = Ok (map (fun h => Z.of_nat (f h)) sel).
Proof.
  unfold int_column. induction sel as [|h sel IH]; [reflexivity|].
  cbn [map concat app mapM as_int Py.bind]. rewrite IH. reflexivity.
Qed.

Lemma index_of_lt (uni : list Z) (h : Z) :
  In h uni -> (index_of uni h < length uni)%nat.
Proof.
  intros Hin. apply nth_error_Some. rewrite index_of_nth by exact Hin.
  discriminate.
Qed.

Lemma harmonic_entry inputs hix hid :
  List.find (fun kv : string * nat => String.eqb (fst kv) "harmonic_id")
            input_index = Some ("harmonic_id"%string, hix) ->
  get_harmonic_id input_index inputs = Ok hid ->
  exists v, nth_error inputs hix = Some v.
Proof.
  unfold get_harmonic_id, get_input_by_name. intros -> H. cbn [snd] in H.
  destruct (nth_error inputs hix) as [v|]; [eauto | discriminate].
Qed.

Lemma partition_is_wf_laue inputs hid idx part hix :
  List.find (fun kv : string * nat => String.eqb (fst kv) "harmonic_id")
            input_index = Some ("harmonic_id"%string, hix) ->
  get_name_by_index input_index hix = Some "harmonic_id"%string ->
  get_harmonic_id input_index inputs = Ok hid ->
  wf_laue inputs hid = true ->
  length idx = length hid ->
  partition_spec input_index inputs hid idx part ->
  exists hid',
    get_harmonic_id input_index part = Ok hid'
    /\ length hid' = length (select idx hid)
    /\ wf_laue part hid' = true.
Proof.
  intros Hfind Hname Hh Hwf Hidx (Hlen & _ & Hentries).
  set (sel := select idx hid) in *. set (uni := np_unique sel) in *.
  destruct (harmonic_entry inputs hix hid Hfind Hh) as (v & Hv).
  destruct (Hentries hix v Hv) as (v' & Hv' & Hspec).
  unfold entry_spec in Hspec. rewrite Hname in Hspec.
  rewrite (bool_decide_eq_false_2
             (Some "harmonic_id"%string = Some "intensities"%string)),
          (bool_decide_eq_false_2
             (Some "harmonic_id"%string = Some "uncertainties"%string)),
          (bool_decide_eq_true_2
             (Some "harmonic_id"%string = Some "harmonic_id"%string))
    in Hspec by (discriminate || reflexivity).
  cbn [orb] in Hspec. fold sel uni in Hspec. subst v'.
  exists (map (fun h => Z.of_nat (index_of uni h)) sel).
  split; [|split].
  - unfold get_harmonic_id, get_input_by_name. rewrite Hfind. cbn [snd].
    rewrite Hv'. cbn [Py.bind]. apply int_column_relabelled.
  - apply length_map.
  - unfold wf_laue. rewrite length_map. apply andb_true_iff. split.
    + apply forallb_forall. intros w Hw. apply Nat.eqb_eq.
      apply In_nth_error in Hw as (i & Hi).
      assert (Hlt : (i < length inputs)%nat).
      { rewrite <- Hlen. apply nth_error_Some. rewrite Hi. discriminate. }
      destruct (nth_error inputs i) as [u|] eqn:Hu;
        [|apply nth_error_None in Hu; lia].
      destruct (Hentries i u Hu) as (w' & Hw' & Hs).
      rewrite Hi in Hw'. injection Hw' as <-.
      unfold entry_spec in Hs.
      destruct (_ || _)%bool.
      * destruct Hs as (Hs & _). exact Hs.
      * destruct (bool_decide _).
        -- subst w. apply length_map.
        -- subst w. apply select_length_same_mask; [|exact Hidx].
           rewrite Hidx. symmetry. eapply wf_laue_rows; eauto.
           eapply nth_error_In; eauto.
    + apply forallb_forall. intros z Hz.
      apply in_map_iff in Hz as (h & <- & Hh').
      assert (Hlt : (index_of uni h < length uni)%nat)
        by (apply index_of_lt, np_unique_In, Hh').
      pose proof (np_unique_length sel) as Hle. fold uni in Hle.
      apply andb_true_iff. split; [apply Z.leb_le | apply Z.ltb_lt]; lia.
Qed.

(** X17: the partitions of an accepted mask are well-formed Laue inputs
    again: in each, every entry has one row per retained harmonic (this is
    what the padding of intensities and uncertainties is for) and the
    relabelled harmonic ids are row numbers, so a partition can itself be
    split. *)
Theorem split_laue_data_by_mask_partitions_well_formed
    (self : DataManager) (test_idx : list bool) (harmonic_id : list Z)
    (hix : nat) :
  List.find (fun kv : string * nat => String.eqb (fst kv) "harmonic_id")
            input_index = Some ("harmonic_id"%string, hix) ->
  get_name_by_index input_index hix = Some "harmonic_id"%string ->
  get_harmonic_id input_index (inputs self) = Ok harmonic_id ->
  wf_laue (inputs self) harmonic_id = true ->
  length test_idx = length harmonic_id ->
  keeps_groups_whole test_idx harmonic_id ->
  exists train test id_train id_test,
    split_laue_data_by_mask input_index self test_idx = Ok (train, test)
    /\ get_harmonic_id input_index train = Ok id_train
    /\ length id_train = length (select (map negb test_idx) harmonic_id)
    /\ wf_laue train id_train = true
    /\ get_harmonic_id input_index test = Ok id_test
    /\ length id_test = length (select test_idx harmonic_id)
    /\ wf_laue test id_test = true.
Proof.
  intros Hfind Hname Hh Hwf Hlen Hwhole.
  destruct (split_laue_data_by_mask_Ok self test_idx harmonic_id
              Hh Hwf Hlen Hwhole) as (train & test & Hsplit & Htr & Hte).
  destruct (partition_is_wf_laue _ _ _ _ _ Hfind Hname Hh Hwf
              (eq_trans (length_map negb test_idx) Hlen) Htr)
    as (id_train & H1 & H2 & H3).
  destruct (partition_is_wf_laue _ _ _ _ _ Hfind Hname Hh Hwf Hlen Hte)
    as (id_test & H4 & H5 & H6).
  exists train, test, id_train, id_test. auto 10.
Qed.

(** *** Edge cases of the image split *)

(** X18: with a single image (every row has image id 0) the
    low-image-count fix overwrites the only draw with its opposite, so all
    rows get the same side, whatever was drawn: one partition receives
    every observation and the other none. *)
Theorem image_test_idx_single_image_flips
    (rng : nat -> Q) (test_fraction : Q) (n : nat) :
  image_test_idx rng test_fraction (repeat 0 (S n))
  = Ok (repeat (negb (Qle_bool (rng 0%nat) test_fraction)) (S n)).
Proof.
  assert (Hmax : forall k, fold_left Z.max (repeat 0 k) 0 = 0)
    by (induction k; simpl; auto).
  assert (Htake : forall (b : bool) k, take [b] (repeat 0 k) = Ok (repeat b k)).
  { intros b k. unfold take. induction k as [|k IH]; simpl; [reflexivity|].
    rewrite IH. reflexivity. }
  unfold image_test_idx. cbn [np_max repeat]. rewrite Hmax. simpl.
  destruct (Qle_bool (rng 0%nat) test_fraction); simpl.
  - apply (Htake false (S n)).
  - apply (Htake true (S n)).
Qed.

(** X19: [split_data_by_image] on a dataset without rows raises ValueError:
    the image-id column has no maximum.  This holds for Laue and for
    monochromatic inputs alike. *)
Theorem split_data_by_image_empty
    (self : DataManager) (rng : nat -> Q) (test_fraction : Q) :
  get_image_id input_index (inputs self) = Ok [] ->
  split_data_by_image input_index is_laue self rng test_fraction
  = Raise (ValueError []).
Proof.
  intros Hid. unfold split_data_by_image. rewrite Hid. reflexivity.
Qed.

(** X25: for monochromatic inputs [split_data_by_refl] draws once per row
    of the first input, sends row i to the test side exactly when draw i is
    at most the test fraction, and slices every input with that mask; it
    returns whenever all inputs have as many rows as the first. *)
Theorem split_data_by_refl_mono
    (self : DataManager) (rng : nat -> Q) (test_fraction : Q)
    (first : ndarray) (rest : list ndarray) :
  is_laue (inputs self) = false ->
  inputs self = first :: rest ->
  List.Forall (fun v : ndarray => length v = length first) (inputs self) ->
  let test_idx := map (fun i => Qle_bool (rng i) test_fraction)
                      (seq 0 (length first)) in
  split_data_by_refl input_index is_laue self rng test_fraction
  = Ok (map (select (map negb test_idx)) (inputs self),
        map (select test_idx) (inputs self))
  /\ List.Forall
       (fun v : ndarray =>
          Permutation (select test_idx v ++ select (map negb test_idx) v) v)
       (inputs self).
Proof.
  intros Hmono Hin Hrows test_idx.
  assert (Hlen : length test_idx = length first)
    by (unfold test_idx; rewrite length_map, length_seq; reflexivity).
  assert (Hrows' : List.Forall (fun v : ndarray => length v = length test_idx)
                               (inputs self)).
  { eapply List.Forall_impl; [|exact Hrows]. intros v Hv. cbv beta in *.
    congruence. }
  split.
  - assert (Hfirst : np_index (inputs self) 0 = Ok first).
    { destruct (np_index_Ok (inputs self) 0) as (x & Hx & Hnth).
      - rewrite Hin. simpl length. lia.
      - rewrite Hin in Hnth. simpl in Hnth. congruence. }
    assert (Hdraw : random_le rng (Z.of_nat (length first)) test_fraction
                    = Ok test_idx).
    { unfold random_le.
      destruct (Z.of_nat (length first) <? 0) eqn:Hneg;
        [apply Z.ltb_lt in Hneg; lia|].
      rewrite Nat2Z.id. reflexivity. }
    unfold split_data_by_refl. rewrite Hmono, Hfirst. cbn [Py.bind].
    rewrite Hdraw. cbn [Py.bind].
    unfold split_mono_data_by_mask.
    rewrite mapM_bool_index_Ok by exact Hrows'. cbn [Py.bind].
    rewrite mapM_bool_index_Ok; [reflexivity|].
    eapply List.Forall_impl; [|exact Hrows']. intros v Hv. cbv beta in *.
    rewrite length_map. exact Hv.
  - eapply List.Forall_impl; [|exact Hrows']. intros v Hv. cbv beta in *.
    apply select_negb_Permutation. congruence.
Qed.

(** *** The partitions entry by entry *)

Lemma select_kept {A : Type} (mask : list bool) (a : list A) :
  select mask a = kept mask a.
Proof.
  unfold select. revert a.
  induction mask as [|b mask IH]; intros [|x a]; simpl; try reflexivity.
  destruct b; simpl; rewrite IH; reflexivity.
Qed.

Lemma get_name_by_index_In (tbl : list (string * nat)) i name :
  get_name_by_index tbl i = Some name -> In (name, i) tbl.
Proof.
  unfold get_name_by_index.
  destruct (List.find _ tbl) as [[n j]|] eqn:Hf; [|discriminate].
  simpl. intros Heq. injection Heq as <-.
  apply find_some in Hf as (Hin & Hj). simpl in Hj.
  apply Nat.eqb_eq in Hj. subst j. exact Hin.
Qed.

Lemma In_get_name_by_index (tbl : list (string * nat)) i name :
  List.NoDup (map snd tbl) -> In (name, i) tbl ->
  get_name_by_index tbl i = Some name.
Proof.
  unfold get_name_by_index.
  induction tbl as [|[n j] tbl IH]; simpl; [intros _ []|].
  intros Hnd Hin. inversion Hnd as [|? ? Hj Hrest]; subst.
  destruct (j =? i)%nat eqn:Hji.
  - apply Nat.eqb_eq in Hji. subst j. simpl.
    destruct Hin as [Heq | Hin]; [congruence|].
    exfalso. apply Hj. apply (in_map snd) in Hin. exact Hin.
  - destruct Hin as [Heq | Hin].
    + injection Heq as _ ->. rewrite Nat.eqb_refl in Hji. discriminate.
    + apply IH; assumption.
Qed.

Lemma rectangular_rows (v : ndarray) r r' :
  rectangular v = true -> In r v -> In r' v -> length r = length r'.
Proof.
  destruct v as [|r0 v]; [intros _ []|]. simpl. intros H.
  assert (H0 : forall x, In x (r0 :: v) -> length x = length r0).
  { intros x [<- | Hx]; [reflexivity|].
    rewrite forallb_forall in H. apply Nat.eqb_eq, H, Hx. }
  intros Hr Hr'. rewrite (H0 r Hr), (H0 r' Hr'). reflexivity.
Qed.

Lemma np_index_In {A : Type} (a : list A) (i : Z) x :
  np_index a i = Ok x -> In x a.
Proof.
  unfold np_index. destruct (_ && _)%bool; [|discriminate].
  destruct (nth_error a _) as [y|] eqn:Hy; [|discriminate].
  intros Heq. injection Heq as <-. eapply nth_error_In; eauto.
Qed.

Lemma take_In {A : Type} (a : list A) (ix : list Z) l x :
  take a ix = Ok l -> In x l -> In x a.
Proof.
  unfold take. revert l. induction ix as [|i ix IH]; simpl; intros l H.
  - injection H as <-. intros [].
  - apply bind_Ok_inv in H as (y & Hy & H).
    apply bind_Ok_inv in H as (ys & Hys & H). injection H as <-.
    intros [<- | Hx]; [eapply np_index_In; eauto | eauto].
Qed.

Lemma np_unique_retained idx hid :
  retained_groups idx hid (np_unique (select idx hid)).
Proof.
  split; [apply np_unique_sorted|].
  intros h. rewrite np_unique_In. apply select_In_nth.
Qed.

(** [v[uni]] padded with 1.0 up to [len(inv)] rows. *)
Lemma take_pad_reduced (hid sel : list Z) (v : ndarray) :
  length v = length hid ->
  (forall h, In h sel -> 0 <= h < Z.of_nat (length hid)) ->
  rectangular v = true ->
  exists v',
    (let* t := take v (np_unique sel) in
     pad_ones t (Z.of_nat (length (map (index_of (np_unique sel)) sel))
                 - Z.of_nat (length t))) = Ok v'
    /\ reduced_and_padded (np_unique sel) (length sel) v v'.
Proof.
  intros Hv Hids Hrect.
  destruct (mapM_Ok_exists (np_index v) (np_unique sel)) as (l & Hl).
  { intros h Hh. apply (proj1 (np_unique_In h sel)) in Hh.
    destruct (np_index_Ok v h) as (x & Hx & _);
      [rewrite Hv; apply Hids; exact Hh | eauto]. }
  pose proof Hl as Htake. unfold take. rewrite Hl. simpl.
  pose proof (mapM_length _ _ _ Hl) as Hlen.
  pose proof (np_unique_length sel) as Hle.
  unfold pad_ones. rewrite length_map, Hlen.
  destruct (_ <? 0) eqn:Hneg; [apply Z.ltb_lt in Hneg; lia|].
  eexists; split; [reflexivity|].
  replace (Z.to_nat (Z.of_nat (length sel) - Z.of_nat (length (np_unique sel))))
    with (length sel - length (np_unique sel))%nat by lia.
  split; [|split].
  - rewrite length_app, repeat_length, Hlen. lia.
  - intros k h Hk.
    destruct (mapM_nth _ _ _ _ _ Hl Hk) as (row & Hrow & Hix).
    assert (Hh : 0 <= h < Z.of_nat (length v)).
    { rewrite Hv. apply Hids, (proj1 (np_unique_In h sel)).
      eapply nth_error_In; eauto. }
    destruct (np_index_Ok v h Hh) as (x & Hx & Hnth).
    rewrite Hx in Hix. injection Hix as ->.
    split; [lia|]. exists row. split; [exact Hnth|].
    rewrite nth_error_app1; [exact Hrow|].
    apply nth_error_Some. rewrite Hrow. discriminate.
  - intros k (Hk1 & Hk2). exists (ones_row l). split; [|split].
    + rewrite nth_error_app2 by lia. apply nth_error_repeat. lia.
    + unfold ones_row. apply List.Forall_forall. intros c Hc.
      apply repeat_spec in Hc. exact Hc.
    + intros r Hr. unfold ones_row. rewrite repeat_length.
      destruct (nth_error sel k) as [s|] eqn:Hs;
        [|apply nth_error_None in Hs; lia].
      apply nth_error_In in Hs. apply (proj2 (np_unique_In s sel)) in Hs.
      destruct l as [|first l'].
      { destruct (np_unique sel); [destruct Hs | discriminate]. }
      simpl. apply (rectangular_rows v); [exact Hrect | | exact Hr].
      apply (take_In v (np_unique sel) (first :: l')); [exact Htake|].
      left. reflexivity.
Qed.

(** [inv[:, None]] *)
Lemma inverse_relabelled (sel : list Z) :
  relabelled (np_unique sel) sel
    (map (fun k => [Int (Z.of_nat k)]) (map (index_of (np_unique sel)) sel)).
Proof.
  destruct (relabel_by_index_of sel) as (Hcount & Hord).
  exists (map (index_of (np_unique sel)) sel).
  split; [reflexivity|]. split; [apply length_map|]. split; [|split].
  - intros j h Hj. exists (index_of (np_unique sel) h). split.
    + rewrite nth_error_map, Hj. reflexivity.
    + apply index_of_nth, (proj2 (np_unique_In h sel)).
      eapply nth_error_In; eauto.
  - intros k. rewrite in_map_iff, <- Hcount.
    split; intros (h & H1 & H2); exists h; auto.
  - intros j j' h h' k k' Hj Hj' Hk Hk'.
    rewrite nth_error_map, Hj in Hk. rewrite nth_error_map, Hj' in Hk'.
    simpl in Hk, Hk'. injection Hk as <-. injection Hk' as <-.
    apply Hord; eapply nth_error_In; eauto.
Qed.

Lemma split_entry_exact hid idx i v :
  List.NoDup (map snd input_index) ->
  length v = length hid -> length idx = length hid ->
  (forall h, In h hid -> 0 <= h < Z.of_nat (length hid)) ->
  rectangular v = true ->
  exists v',
    split_entry input_index (np_unique (select idx hid))
      (map (index_of (np_unique (select idx hid))) (select idx hid))
      idx i v = Ok v'
    /\ exact_entry input_index (np_unique (select idx hid)) (kept idx hid)
         idx i v v'.
Proof.
  intros Hnd Hv Hidx Hids Hrect. unfold exact_entry.
  rewrite <- (select_kept idx hid). set (sel := select idx hid).
  unfold split_entry. set (name := get_name_by_index input_index i).
  assert (Hname : forall n, In (n, i) input_index -> name = Some n)
    by (intros n Hn; apply In_get_name_by_index; assumption).
  assert (Hin : forall n, name = Some n -> In (n, i) input_index)
    by (intros n Hn; apply get_name_by_index_In; assumption).
  destruct (bool_decide (name = Some "intensities"%string)
            || bool_decide (name = Some "uncertainties"%string))%bool eqn:Hred.
  - assert (Hn : name = Some "intensities"%string
                 \/ name = Some "uncertainties"%string).
    { apply orb_true_iff in Hred as [H | H];
        apply bool_decide_eq_true_1 in H; auto. }
    destruct (take_pad_reduced hid sel v Hv) as (v' & Hv' & Hspec);
      [intros h Hh; apply Hids; eapply select_In; eauto | exact Hrect |].
    exists v'. split; [exact Hv'|]. split; [|split].
    + intros _. exact Hspec.
    + intros Hh. apply Hname in Hh.
      destruct Hn as [H | H]; rewrite H in Hh; discriminate.
    + intros Hother. exfalso.
      destruct Hn as [H | H];
        destruct (Hother _ (Hin _ H)) as (H1 & H2 & H3); congruence.
  - apply orb_false_iff in Hred as (Hi & Hu).
    apply bool_decide_eq_false_1 in Hi, Hu.
    destruct (bool_decide (name = Some "harmonic_id"%string)) eqn:Hh.
    + apply bool_decide_eq_true_1 in Hh.
      eexists; split; [reflexivity|]. split; [|split].
      * intros [H | H]; apply Hname in H; congruence.
      * intros _. apply inverse_relabelled.
      * intros Hother. destruct (Hother _ (Hin _ Hh)) as (_ & _ & H).
        congruence.
    + apply bool_decide_eq_false_1 in Hh.
      rewrite bool_index_same_length by congruence.
      eexists; split; [reflexivity|]. split; [|split].
      * intros [H | H]; apply Hname in H; congruence.
      * intros H. apply Hname in H. congruence.
      * intros _. apply select_kept.
Qed.

Lemma wf_rectangular inputs v :
  forallb rectangular inputs = true -> In v inputs -> rectangular v = true.
Proof. intros H Hv. rewrite forallb_forall in H. auto. Qed.

Lemma split_exact inputs hid idx :
  List.NoDup (map snd input_index) ->
  get_harmonic_id input_index inputs = Ok hid ->
  wf_laue inputs hid = true ->
  forallb rectangular inputs = true ->
  length idx = length hid ->
  exists part, split input_index inputs idx = Ok part
               /\ exact_partition input_index inputs hid idx part.
Proof.
  intros Hnd Hh Hwf Hrect Hidx. unfold split. rewrite Hh. simpl.
  rewrite bool_index_same_length by exact Hidx. simpl.
  destruct (mapM_enumerate_spec
              (fun iv => split_entry input_index (np_unique (select idx hid))
                           (map (index_of (np_unique (select idx hid)))
                                (select idx hid)) idx (fst iv) (snd iv))
              (exact_entry input_index (np_unique (select idx hid))
                 (kept idx hid) idx) inputs 0%nat)
    as (part & Hpart & Hlen & Hnth).
  { intros i v Hv. simpl.
    apply split_entry_exact; auto.
    - eapply wf_laue_rows; eauto. eapply nth_error_In; eauto.
    - intros h Hin. eapply wf_laue_ids; eauto.
    - eapply wf_rectangular; eauto. eapply nth_error_In; eauto. }
  exists part. split; [exact Hpart|].
  split; [exact Hlen|].
  exists (np_unique (select idx hid)).
  split; [apply np_unique_retained | exact Hnth].
Qed.

(** C10: for a mask as long as the harmonic-id column that keeps every
    harmonic group whole, on well-formed Laue inputs (rectangular arrays
    with one row per harmonic, a table [input_index] that names no position
    twice), [split_laue_data_by_mask] returns a train and a test partition.
    In each of them, with the retained harmonic ids listed once in
    increasing order: the entry the table calls harmonic_id holds, row by
    row, the rank of the old id among the retained ids, so that the new ids
    are exactly 0, 1, ..., ordered as the old ones and equal only for equal
    old ids; the entries the table calls intensities and uncertainties have
    as many rows as the partition has harmonic rows, row k being the row of
    the input at the k-th retained id, and every row after the last group
    holding 1.0 in each column of the input; and every entry the table
    gives another name, or none, holds the rows of the input that the mask
    keeps, in order. *)
Theorem split_laue_data_by_mask_partitions
    (self : DataManager) (test_idx : list bool) (harmonic_id : list Z) :
  List.NoDup (map snd input_index) ->
  get_harmonic_id input_index (inputs self) = Ok harmonic_id ->
  wf_laue (inputs self) harmonic_id = true ->
  forallb rectangular (inputs self) = true ->
  length test_idx = length harmonic_id ->
  keeps_groups_whole test_idx harmonic_id ->
  exists train test,
    split_laue_data_by_mask input_index self test_idx = Ok (train, test)
    /\ exact_partition input_index (inputs self) harmonic_id
         (map negb test_idx) train
    /\ exact_partition input_index (inputs self) harmonic_id test_idx test.
Proof.
  intros Hnd Hh Hwf Hrect Hlen Hwhole.
  destruct (split_exact (inputs self) harmonic_id (map negb test_idx)
              Hnd Hh Hwf Hrect)
    as (train & Htrain & Hspec_train); [rewrite length_map; exact Hlen|].
  destruct (split_exact (inputs self) harmonic_id test_idx
              Hnd Hh Hwf Hrect Hlen)
    as (test & Htest & Hspec_test).
  exists train, test. split; [|split; assumption].
  unfold split_laue_data_by_mask. rewrite Hh. simpl.
  rewrite !bool_index_same_length by (rewrite ?length_map; exact Hlen).
  simpl.
  destruct (0 <? length _)%nat eqn:Hne.
  - apply nonempty_iff_In in Hne as (h & Hin).
    apply intersect1d_In in Hin. destruct (Hwhole h Hin).
  - rewrite Htrain, Htest. reflexivity.
Qed.

End ManagerFacts.


(** *** The theorems at the seven-entry Laue layout *)

Section ManagerExamples.
Import Py Manager.
Local Open Scope Z_scope.

Lemma split_laue_data_by_mask_ValueError_iff_witness :
  (is_ValueError
     (split_laue_data_by_mask example_input_index example_laue
        [true; false; false; false; false]) = true
   <-> exists h, In h (select [true; false; false; false; false] [0; 0; 1; 2; 2])
                 /\ In h (select (map negb [true; false; false; false; false])
                            [0; 0; 1; 2; 2]))
  /\ (is_ValueError
        (split_laue_data_by_mask example_input_index example_laue
           [true; false; false; false; false]) = true ->
      (forall p, split_laue_data_by_mask example_input_index example_laue
                   [true; false; false; false; false] <> Ok p)
      /\ snd (call_method
                (fun s => split_laue_data_by_mask example_input_index s
                            [true; false; false; false; false]) example_laue)
         = example_laue).
Proof.
  apply (split_laue_data_by_mask_ValueError_iff example_input_index
           example_laue [true; false; false; false; false] [0; 0; 1; 2; 2]);
    reflexivity.
Defined.

Lemma split_laue_data_by_mask_partitions_witness :
  exists train test,
    split_laue_data_by_mask example_input_index example_laue
      [true; true; false; false; false] = Ok (train, test)
    /\ exact_partition example_input_index (inputs example_laue) [0; 0; 1; 2; 2]
         (map negb [true; true; false; false; false]) train
    /\ exact_partition example_input_index (inputs example_laue) [0; 0; 1; 2; 2]
         [true; true; false; false; false] test.
Proof.
  apply (split_laue_data_by_mask_partitions example_input_index example_laue
           [true; true; false; false; false] [0; 0; 1; 2; 2]);
    [| reflexivity | reflexivity | reflexivity | reflexivity |].
  - repeat constructor; simpl; intuition discriminate.
  - intros h (H1 & H2). simpl in H1, H2. lia.
Defined.

Lemma split_data_by_refl_keeps_groups_whole_witness :
  exists test_idx train test,
    refl_test_idx (fun i => Z.of_nat i # 3) (1 # 2) [0; 0; 1; 2; 2] = Ok test_idx
    /\ length test_idx = length [0; 0; 1; 2; 2]
    /\ split_data_by_refl example_input_index example_is_laue example_laue
         (fun i => Z.of_nat i # 3) (1 # 2) = Ok (train, test)
    /\ keeps_groups_whole test_idx [0; 0; 1; 2; 2]
    /\ intersect1d (select (map negb test_idx) [0; 0; 1; 2; 2])
                   (select test_idx [0; 0; 1; 2; 2]) = []
    /\ partition_spec example_input_index (inputs example_laue) [0; 0; 1; 2; 2]
         (map negb test_idx) train
    /\ partition_spec example_input_index (inputs example_laue) [0; 0; 1; 2; 2]
         test_idx test.
Proof.
  apply (split_data_by_refl_keeps_groups_whole example_input_index
           example_is_laue example_laue (fun i => Z.of_nat i # 3) (1 # 2)
           [0; 0; 1; 2; 2]);
    [reflexivity | reflexivity | reflexivity | discriminate].
Defined.



Lemma split_laue_data_by_mask_Ok_only_if_witness :
  exists harmonic_id,
    get_harmonic_id example_input_index (inputs example_laue) = Ok harmonic_id
    /\ ([true; true; false; false; false] = []
        \/ length [true; true; false; false; false] = length harmonic_id)
    /\ keeps_groups_whole [true; true; false; false; false] harmonic_id
    /\ length [int_col [12; 13; 14]; int_col [0; 1; 1]; float_col [3; 4; 5];
               float_col [200; 300; 1]; float_col [8; 9; 1];
               float_col [1; 1; 1]; int_col [0; 1; 1]]
       = length (inputs example_laue)
    /\ length [int_col [10; 11]; int_col [0; 0]; float_col [1; 2];
               float_col [100; 1]; float_col [7; 1]; float_col [1; 1];
               int_col [0; 0]]
       = length (inputs example_laue).
Proof.
  apply (split_laue_data_by_mask_Ok_only_if example_input_index example_laue
           [true; true; false; false; false]).
  reflexivity.
Defined.

Lemma split_laue_data_by_mask_partitions_well_formed_witness :
  exists train test id_train id_test,
    split_laue_data_by_mask example_input_index example_laue
      [true; true; false; false; false] = Ok (train, test)
    /\ get_harmonic_id example_input_index train = Ok id_train
    /\ length id_train
       = length (select (map negb [true; true; false; false; false])
                   [0; 0; 1; 2; 2])
    /\ wf_laue train id_train = true
    /\ get_harmonic_id example_input_index test = Ok id_test
    /\ length id_test
       = length (select [true; true; false; false; false] [0; 0; 1; 2; 2])
    /\ wf_laue test id_test = true.
Proof.
  apply (split_laue_data_by_mask_partitions_well_formed example_input_index
           example_laue [true; true; false; false; false] [0; 0; 1; 2; 2] 6);
    [reflexivity | reflexivity | reflexivity | reflexivity | reflexivity |].
  intros h (H1 & H2). simpl in H1, H2. lia.
Defined.

(** A dataset with the five mono entries and no row. *)
Lemma split_data_by_image_empty_witness :
  split_data_by_image example_input_index example_is_laue
    {| inputs := [[]; []; []; []; []] |} (fun _ => 0%Q) (1 # 2)%Q
  = Raise (ValueError []).
Proof.
  apply (split_data_by_image_empty example_input_index example_is_laue
           {| inputs := [[]; []; []; []; []] |} (fun _ => 0%Q) (1 # 2)%Q).
  reflexivity.
Defined.

Lemma split_data_by_refl_mono_witness :
  let test_idx := map (fun i => Qle_bool (Z.of_nat i # 3) (1 # 2))
                      (seq 0 (length (int_col [1; 2]))) in
  split_data_by_refl example_input_index example_is_laue example_one_image
    (fun i => Z.of_nat i # 3) (1 # 2)
  = Ok (map (select (map negb test_idx)) (inputs example_one_image),
        map (select test_idx) (inputs example_one_image))
  /\ List.Forall
       (fun v : ndarray =>
          Permutation (select test_idx v ++ select (map negb test_idx) v) v)
       (inputs example_one_image).
Proof.
  apply (split_data_by_refl_mono example_input_index example_is_laue
           example_one_image (fun i => Z.of_nat i # 3) (1 # 2)
           (int_col [1; 2])
           [int_col [0; 0]; float_col [1; 2]; float_col [3; 4];
            float_col [5; 6]]);
    [reflexivity | reflexivity | repeat constructor].
Defined.

End ManagerExamples.

(** ** Reflection-id tables *)

Section ASUFacts.
Import Py ASU.
Local Open Scope Z_scope.

Lemma enumerate_from_snd {A : Type} (l : list A) i :
  map snd (enumerate_from i l) = l.
Proof. revert i; induction l; intros i; simpl; [|rewrite IHl]; reflexivity. Qed.

Lemma enumerate_from_fst {A : Type} (l : list A) i :
  map fst (enumerate_from i l) = seq i (length l).
Proof. revert i; induction l; intros i; simpl; [|rewrite IHl]; reflexivity. Qed.

Lemma lookup_table_hkl asu : map hkl (lookup_table asu) = Hall asu.
Proof.
  unfold lookup_table. rewrite map_map. simpl.
  apply enumerate_from_snd.
Qed.

Lemma lookup_table_id asu :
  map id (lookup_table asu) = arange (length (Hall asu)).
Proof.
  unfold lookup_table, arange. rewrite map_map. simpl.
  rewrite <- enumerate_from_fst with (l := Hall asu), map_map. reflexivity.
Qed.

Lemma lookup_table_length asu : length (lookup_table asu) = length (Hall asu).
Proof.
  unfold lookup_table. rewrite length_map.
  rewrite <- (length_map snd), enumerate_from_snd. reflexivity.
Qed.

Lemma seq_shift_by n m : forall s,
  seq (s + n) m = map (fun k => (k + n)%nat) (seq s m).
Proof.
  induction m as [|m IH]; intros s0; simpl; [reflexivity|].
  f_equal. apply (IH (S s0)).
Qed.

Lemma arange_app n m :
  arange (n + m) = arange n ++ map (fun z => z + Z.of_nat n) (arange m).
Proof.
  unfold arange. rewrite seq_app, map_app. f_equal.
  rewrite (seq_shift_by n m 0), !map_map.
  apply map_ext. intros; lia.
Qed.

Lemma add_asu_Some t i asu :
  exists t', add_asu (Some t) i asu = Some t'
    /\ map composite_key t'
       = map composite_key t ++ map (pair (Z.of_nat i)) (Hall asu)
    /\ (map id t = arange (length t) -> map id t' = arange (length t')).
Proof.
  unfold add_asu. eexists; split; [reflexivity|]. split.
  - rewrite map_app, !map_map. f_equal. simpl.
    rewrite <- (lookup_table_hkl asu), map_map. reflexivity.
  - intros Hid. rewrite map_app, length_app, !length_map, lookup_table_length.
    rewrite arange_app, Hid. f_equal.
    rewrite !map_map. simpl. rewrite <- lookup_table_id, map_map. reflexivity.
Qed.

Lemma add_asus_Some asus : forall i t,
  exists t', add_asus (Some t) i asus = Some t'
    /\ map composite_key t' = map composite_key t ++ keys_of i asus
    /\ (map id t = arange (length t) -> map id t' = arange (length t')).
Proof.
  induction asus as [|asu rest IH]; intros i t; cbn [add_asus keys_of].
  - exists t. rewrite app_nil_r. auto.
  - destruct (add_asu_Some t i asu) as (t1 & -> & Hk1 & Hid1).
    destruct (IH (S i) t1) as (t' & Ht' & Hk & Hid).
    exists t'. split; [exact Ht'|]. split.
    + rewrite Hk, Hk1, app_assoc. reflexivity.
    + auto.
Qed.

Lemma init_empty : init [] = Raise (AttributeError "set_index").
Proof. reflexivity. Qed.

Lemma init_table asus :
  asus <> [] ->
  exists C, init asus = Ok C
    /\ reciprocal_asus C = asus
    /\ map composite_key (collection_table C) = keys_of 0 asus
    /\ map id (collection_table C) = arange (length (collection_table C)).
Proof.
  destruct asus as [|asu rest]; [congruence|]. intros _.
  unfold init. simpl.
  set (t0 := map (set_asu_id 0) (lookup_table asu)).
  assert (Hk0 : map composite_key t0 = map (pair 0) (Hall asu)).
  { unfold t0. rewrite map_map. simpl.
    rewrite <- (lookup_table_hkl asu), map_map. reflexivity. }
  assert (Hid0 : map id t0 = arange (length t0)).
  { unfold t0. rewrite map_map, length_map, lookup_table_length. simpl.
    apply lookup_table_id. }
  destruct (add_asus_Some rest 1 t0) as (t' & Ht' & Hk & Hid).
  change (Z.of_nat 0) with 0. fold t0. rewrite Ht'.
  eexists; split; [reflexivity|]. simpl. split; [reflexivity|].
  split; [rewrite Hk, Hk0; reflexivity | auto].
Qed.

Lemma keys_of_asu_id asus : forall i a h,
  In (a, h) (keys_of i asus) -> Z.of_nat i <= a.
Proof.
  induction asus as [|asu rest IH]; intros i a h; simpl; [intros []|].
  rewrite in_app_iff, in_map_iff. intros [(h' & Heq & _) | Hin].
  - injection Heq as <- _. lia.
  - apply IH in Hin. lia.
Qed.

Lemma keys_of_NoDup asus : forall i,
  List.Forall (fun asu => List.NoDup (Hall asu)) asus ->
  List.NoDup (keys_of i asus).
Proof.
  induction asus as [|asu rest IH]; intros i Hnd; simpl; [constructor|].
  inversion Hnd as [|? ? Hasu Hrest]; subst.
  apply List.NoDup_app.
  - apply Injective_map_NoDup; [|exact Hasu].
    intros x y Heq. congruence.
  - apply IH, Hrest.
  - intros [a h] Hin Hin'. apply in_map_iff in Hin as (h' & Heq & _).
    injection Heq as <- _. apply keys_of_asu_id in Hin'. lia.
Qed.

Lemma arange_NoDup n : List.NoDup (arange n).
Proof.
  unfold arange. apply Injective_map_NoDup; [|apply seq_NoDup].
  intros x y Heq. lia.
Qed.

(** *** Lookups in a table whose index has no duplicates *)

Section Loc.
Context {K : Type} `{EqDecision K}.
Variable index : Row -> K.

Lemma filter_unique_label (t : list Row) (r : Row) :
  List.NoDup (map index t) -> In r t ->
  List.filter (fun x => bool_decide (index x = index r)) t = [r].
Proof.
  induction t as [|x t IH]; simpl; [intros _ []|].
  intros Hnd Hin. inversion Hnd as [|? ? Hx Ht]; subst.
  destruct Hin as [-> | Hin].
  - rewrite bool_decide_eq_true_2 by reflexivity. f_equal.
    apply filter_none. intros y Hy. apply bool_decide_eq_false_2.
    intros Heq. apply Hx. rewrite <- Heq. apply in_map, Hy.
  - rewrite bool_decide_eq_false_2.
    + apply IH; assumption.
    + intros Heq. apply Hx. rewrite Heq. apply in_map, Hin.
Qed.

Lemma loc_rows (t rows : list Row) :
  List.NoDup (map index t) -> (forall r, In r rows -> In r t) ->
  loc index t (map index rows) = Ok rows.
Proof.
  intros Hnd Hsub. unfold loc.
  assert (Hm : mapM (fun l =>
                 match List.filter (fun r => bool_decide (index r = l)) t with
                 | [] => Raise KeyError
                 | rows => Ok rows
                 end) (map index rows) = Ok (map (fun r => [r]) rows)).
  { induction rows as [|r rows IH]; simpl; [reflexivity|].
    rewrite filter_unique_label;
      [| exact Hnd | apply Hsub; left; reflexivity].
    simpl. rewrite IH; [reflexivity|].
    intros r' Hr'. apply Hsub. right. exact Hr'. }
  rewrite Hm. simpl. f_equal.
  clear. induction rows as [|r rows IH]; simpl; [|rewrite IH]; reflexivity.
Qed.

Lemma rows_of_labels (t : list Row) (labels : list K) :
  List.Forall (fun l => In l (map index t)) labels ->
  exists rows, (forall r, In r rows -> In r t) /\ map index rows = labels.
Proof.
  induction 1 as [|l labels Hl _ (rows & Hsub & Hrows)].
  - exists []. split; [intros r []| reflexivity].
  - apply in_map_iff in Hl as (r & Hr & Hin).
    exists (r :: rows). split.
    + intros r' [<- | Hr']; auto.
    + simpl. congruence.
Qed.

End Loc.

Lemma arange_In n r : In r (arange n) <-> 0 <= r < Z.of_nat n.
Proof.
  unfold arange. rewrite in_map_iff. split.
  - intros (k & <- & Hk). apply in_seq in Hk. lia.
  - intros Hr. exists (Z.to_nat r). split; [lia|]. apply in_seq. lia.
Qed.

Lemma arange_nth (n k : nat) :
  (k < n)%nat -> nth_error (arange n) k = Some (Z.of_nat k).
Proof.
  intros Hk. unfold arange. rewrite nth_error_map.
  rewrite (nth_error_nth' _ 0%nat) by (rewrite length_seq; exact Hk).
  rewrite seq_nth by exact Hk. reflexivity.
Qed.

(** The rows found at given positions of a table numbered 0, 1, ...: their
    keys are the keys at these positions and their ids the positions. *)
Lemma rows_at_positions (t : list Row) (ks : list nat)
    (keys : list (Z * miller)) :
  map id t = arange (length t) ->
  Forall2 (fun k key => nth_error (map composite_key t) k = Some key)
          ks keys ->
  exists rows, (forall r, In r rows -> In r t)
    /\ map composite_key rows = keys
    /\ map id rows = map Z.of_nat ks.
Proof.
  intros Hids. induction 1 as [|k key ks keys Hk _ (rows & Hsub & Hkeys & Hid)].
  - exists []. split; [intros r [] | split; reflexivity].
  - rewrite nth_error_map in Hk.
    destruct (nth_error t k) as [r|] eqn:Hr; [|discriminate].
    injection Hk as Hk.
    assert (Hlt : (k < length t)%nat)
      by (apply nth_error_Some; congruence).
    assert (Hidr : id r = Z.of_nat k).
    { pose proof (arange_nth (length t) k Hlt) as Hn.
      rewrite <- Hids, nth_error_map, Hr in Hn. simpl in Hn. congruence. }
    exists (r :: rows). split; [|split].
    + intros r' [<- | Hr']; [eapply nth_error_In; eauto | auto].
    + simpl. congruence.
    + simpl. congruence.
Qed.

Lemma key_columns (rows : list Row) :
  map asu_id rows = map fst (map composite_key rows)
  /\ map hkl rows = map snd (map composite_key rows).
Proof. rewrite !map_map. split; reflexivity. Qed.

Lemma combine_key_columns (rows : list Row) :
  combine (map asu_id rows) (map hkl rows) = map composite_key rows.
Proof. induction rows as [|r rows IH]; simpl; [|rewrite IH]; reflexivity. Qed.

Lemma key_columns_of_combine (rows : list Row) (a : list Z) (h : list miller) :
  length a = length h -> map composite_key rows = combine a h ->
  map asu_id rows = a /\ map hkl rows = h.
Proof.
  revert a h; induction rows as [|r rows IH]; intros [|x a] [|y h] Hlen Heq;
    simpl in *; try discriminate; auto.
  injection Hlen as Hlen. injection Heq as Hx Hy Heq.
  destruct (IH a h Hlen Heq) as (-> & ->). subst. auto.
Qed.

(** C9: a collection built from at least one ASU, each with a
    duplicate-free list of Miller indices, numbers its composite keys
    (asu id, H, K, L), taken ASU by ASU in order, 0, 1, ..., n-1; no key
    occurs twice; [to_asu_id_and_miller_index] and [to_refl_id] undo each
    other on every list of valid ids and on every list of keys of the
    collection; and both lookups answer entry by entry, in the order of the
    query, with the numbering of the constructor: for keys taken at
    positions ks of the ASU-by-ASU enumeration, [to_refl_id] returns exactly
    ks and [to_asu_id_and_miller_index] maps ks back to these keys, and for
    any list of rows of the table [to_refl_id] maps their keys to their ids
    and [to_asu_id_and_miller_index] their ids to their keys. *)
Theorem collection_ids_bijection (asus : list ReciprocalASU) :
  asus <> [] ->
  List.Forall (fun asu => List.NoDup (Hall asu)) asus ->
  exists C, init asus = Ok C /\
    let t := collection_table C in
    map composite_key t = keys_of 0 asus
    /\ map id t = arange (length t)
    /\ List.NoDup (map composite_key t)
    /\ (forall refl_id,
          List.Forall (fun r => 0 <= r < Z.of_nat (length t)) refl_id ->
          exists a h,
            to_asu_id_and_miller_index C refl_id = Ok (a, h)
            /\ List.Forall (fun k => In k (map composite_key t)) (combine a h)
            /\ to_refl_id C a h = Ok refl_id)
    /\ (forall a h,
          length a = length h ->
          List.Forall (fun k => In k (map composite_key t)) (combine a h) ->
          exists refl_id,
            to_refl_id C a h = Ok refl_id
            /\ List.Forall (fun r => 0 <= r < Z.of_nat (length t)) refl_id
            /\ to_asu_id_and_miller_index C refl_id = Ok (a, h))
    /\ (forall ks keys,
          Forall2 (fun k key => nth_error (keys_of 0 asus) k = Some key)
                  ks keys ->
          to_refl_id C (map fst keys) (map snd keys) = Ok (map Z.of_nat ks)
          /\ to_asu_id_and_miller_index C (map Z.of_nat ks)
             = Ok (map fst keys, map snd keys))
    /\ (forall rows,
          (forall r, In r rows -> In r t) ->
          to_refl_id C (map asu_id rows) (map hkl rows) = Ok (map id rows)
          /\ to_asu_id_and_miller_index C (map id rows)
             = Ok (map asu_id rows, map hkl rows)).
Proof.
  intros Hne Hnd.
  destruct (init_table asus Hne) as (C & HC & _ & Hkeys & Hids).
  exists C. split; [exact HC|]. cbv zeta.
  set (t := collection_table C) in *.
  assert (Hknd : List.NoDup (map composite_key t))
    by (rewrite Hkeys; apply keys_of_NoDup, Hnd).
  assert (Hind : List.NoDup (map id t))
    by (rewrite Hids; apply arange_NoDup).
  assert (Hexact : forall rows,
            (forall r, In r rows -> In r t) ->
            to_refl_id C (map asu_id rows) (map hkl rows) = Ok (map id rows)
            /\ to_asu_id_and_miller_index C (map id rows)
               = Ok (map asu_id rows, map hkl rows)).
  { intros rows Hsub. split.
    - unfold to_refl_id. fold t. rewrite !length_map, Nat.eqb_refl.
      rewrite combine_key_columns, loc_rows by assumption. reflexivity.
    - unfold to_asu_id_and_miller_index. fold t.
      rewrite loc_rows by assumption. reflexivity. }
  split; [exact Hkeys|]. split; [exact Hids|]. split; [exact Hknd|].
  split; [|split; [|split; [|exact Hexact]]].
  - intros refl_id Hvalid.
    destruct (rows_of_labels id t refl_id) as (rows & Hsub & Hrows).
    { eapply List.Forall_impl; [|exact Hvalid]. simpl. intros r Hr.
      rewrite Hids. apply arange_In, Hr. }
    exists (map asu_id rows), (map hkl rows). split; [|split].
    + unfold to_asu_id_and_miller_index. fold t.
      rewrite <- Hrows, loc_rows by assumption. reflexivity.
    + rewrite combine_key_columns. apply List.Forall_forall.
      intros k Hk. apply in_map_iff in Hk as (r & <- & Hr).
      apply in_map, Hsub, Hr.
    + unfold to_refl_id. fold t. rewrite !length_map, Nat.eqb_refl.
      rewrite combine_key_columns, loc_rows by assumption.
      simpl. congruence.
  - intros a h Hlen Hpresent.
    destruct (rows_of_labels composite_key t (combine a h) Hpresent)
      as (rows & Hsub & Hrows).
    exists (map id rows). split; [|split].
    + unfold to_refl_id. fold t. rewrite Hlen, Nat.eqb_refl.
      rewrite <- Hrows, loc_rows by assumption. reflexivity.
    + apply List.Forall_forall. intros r Hr.
      apply in_map_iff in Hr as (row & <- & Hrow).
      apply arange_In. rewrite <- Hids. apply in_map, Hsub, Hrow.
    + unfold to_asu_id_and_miller_index. fold t.
      rewrite loc_rows by assumption. simpl.
      destruct (key_columns_of_combine rows a h Hlen Hrows) as (-> & ->).
      reflexivity.
  - intros ks keys Hpos. rewrite <- Hkeys in Hpos.
    destruct (rows_at_positions t ks keys Hids Hpos)
      as (rows & Hsub & Hk & Hid).
    destruct (key_columns rows) as (Ha & Hh).
    rewrite <- Hk, <- Ha, <- Hh, <- Hid. apply Hexact, Hsub.
Qed.

Lemma collection_ids_bijection_witness :
  exists C, init [example_asu_0; example_asu_1] = Ok C /\
    let t := collection_table C in
    map composite_key t = keys_of 0 [example_asu_0; example_asu_1]
    /\ map id t = arange (length t)
    /\ List.NoDup (map composite_key t)
    /\ (forall refl_id,
          List.Forall (fun r => 0 <= r < Z.of_nat (length t)) refl_id ->
          exists a h,
            to_asu_id_and_miller_index C refl_id = Ok (a, h)
            /\ List.Forall (fun k => In k (map composite_key t)) (combine a h)
            /\ to_refl_id C a h = Ok refl_id)
    /\ (forall a h,
          length a = length h ->
          List.Forall (fun k => In k (map composite_key t)) (combine a h) ->
          exists refl_id,
            to_refl_id C a h = Ok refl_id
            /\ List.Forall (fun r => 0 <= r < Z.of_nat (length t)) refl_id
            /\ to_asu_id_and_miller_index C refl_id = Ok (a, h))
    /\ (forall ks keys,
          Forall2 (fun k key =>
                     nth_error (keys_of 0 [example_asu_0; example_asu_1]) k
                     = Some key) ks keys ->
          to_refl_id C (map fst keys) (map snd keys) = Ok (map Z.of_nat ks)
          /\ to_asu_id_and_miller_index C (map Z.of_nat ks)
             = Ok (map fst keys, map snd keys))
    /\ (forall rows,
          (forall r, In r rows -> In r t) ->
          to_refl_id C (map asu_id rows) (map hkl rows) = Ok (map id rows)
          /\ to_asu_id_and_miller_index C (map id rows)
             = Ok (map asu_id rows, map hkl rows)).
Proof.
  apply (collection_ids_bijection [example_asu_0; example_asu_1]);
    [discriminate|].
  repeat constructor; simpl; intuition discriminate.
Defined.

(** The table of the two example ASUs, and one round trip through it. *)
Example example_collection_round_trip :
  exists C, init [example_asu_0; example_asu_1] = Ok C
    /\ map id (collection_table C) = [0; 1; 2; 3; 4]
    /\ map composite_key (collection_table C)
       = [(0, (0, 0, 1)); (0, (0, 1, 0)); (0, (1, 0, 0));
          (1, (0, 0, 2)); (1, (0, 0, 1))]
    /\ to_asu_id_and_miller_index C [4; 0] = Ok ([1; 0], [(0, 0, 1); (0, 0, 1)])
    /\ to_refl_id C [1; 0] [(0, 0, 1); (0, 0, 1)] = Ok [4; 0].
Proof. eexists; split; [reflexivity|]. repeat split. Qed.

(** *** A single ASU *)

Lemma enumerate_from_nth {A : Type} (l : list A) :
  forall i j x, nth_error l j = Some x ->
    nth_error (enumerate_from i l) j = Some ((i + j)%nat, x).
Proof.
  induction l as [|y l IH]; intros i [|j] x Hx; try discriminate; simpl in *.
  - injection Hx as <-. rewrite Nat.add_0_r. reflexivity.
  - rewrite (IH (S i) j x Hx). f_equal. f_equal. lia.
Qed.

Lemma lookup_table_nth asu j h :
  nth_error (Hall asu) j = Some h ->
  exists row, nth_error (lookup_table asu) j = Some row
    /\ hkl row = h /\ id row = Z.of_nat j
    /\ CENTRIC row = label_centrics asu h
    /\ EPSILON row = compute_multiplicity asu h.
Proof.
  intros Hj. unfold lookup_table.
  rewrite nth_error_map, (enumerate_from_nth _ 0 j h Hj). simpl.
  eexists; split; [reflexivity|]. simpl. auto.
Qed.

(** X20: for a single [ReciprocalASU] with a duplicate-free list of Miller
    indices, the reflection id of a Miller index is its position in that
    list, and [to_refl_id] and [to_miller_index] undo each other on every
    list of Miller indices of the ASU and on every list of ids
    0 <= id < n. *)
Theorem asu_round_trip (asu : ReciprocalASU) :
  List.NoDup (Hall asu) ->
  (forall j h, nth_error (Hall asu) j = Some h ->
     asu_to_refl_id asu [h] = Ok [Z.of_nat j])
  /\ (forall H, List.Forall (fun h => In h (Hall asu)) H ->
        exists refl_id, asu_to_refl_id asu H = Ok refl_id
          /\ asu_to_miller_index asu refl_id = Ok H)
  /\ (forall refl_id,
        List.Forall (fun r => 0 <= r < Z.of_nat (length (Hall asu))) refl_id ->
        exists H, asu_to_miller_index asu refl_id = Ok H
          /\ asu_to_refl_id asu H = Ok refl_id).
Proof.
  intros Hnd.
  assert (Hk : List.NoDup (map hkl (lookup_table asu)))
    by (rewrite lookup_table_hkl; exact Hnd).
  assert (Hi : List.NoDup (map id (lookup_table asu)))
    by (rewrite lookup_table_id; apply arange_NoDup).
  split; [|split].
  - intros j h Hj.
    destruct (lookup_table_nth asu j h Hj) as (row & Hrow & Hh & Hid & _).
    unfold asu_to_refl_id.
    replace [h] with (map hkl [row]) by (simpl; congruence).
    rewrite loc_rows; [simpl; congruence | exact Hk |].
    intros r [<- | []]. eapply nth_error_In; eauto.
  - intros H HH.
    destruct (rows_of_labels hkl (lookup_table asu) H) as (rows & Hsub & Hrows).
    { rewrite lookup_table_hkl. exact HH. }
    exists (map id rows). unfold asu_to_refl_id, asu_to_miller_index.
    rewrite <- Hrows, !loc_rows by assumption. auto.
  - intros refl_id Hvalid.
    destruct (rows_of_labels id (lookup_table asu) refl_id)
      as (rows & Hsub & Hrows).
    { rewrite lookup_table_id.
      eapply List.Forall_impl; [|exact Hvalid]. intros r Hr.
      apply arange_In, Hr. }
    exists (map hkl rows). unfold asu_to_refl_id, asu_to_miller_index.
    rewrite <- Hrows, !loc_rows by assumption. auto.
Qed.

Lemma asu_round_trip_witness :
  (forall j h, nth_error (Hall example_asu_0) j = Some h ->
     asu_to_refl_id example_asu_0 [h] = Ok [Z.of_nat j])
  /\ (forall H, List.Forall (fun h => In h (Hall example_asu_0)) H ->
        exists refl_id, asu_to_refl_id example_asu_0 H = Ok refl_id
          /\ asu_to_miller_index example_asu_0 refl_id = Ok H)
  /\ (forall refl_id,
        List.Forall
          (fun r => 0 <= r < Z.of_nat (length (Hall example_asu_0))) refl_id ->
        exists H, asu_to_miller_index example_asu_0 refl_id = Ok H
          /\ asu_to_refl_id example_asu_0 H = Ok refl_id).
Proof.
  apply (asu_round_trip example_asu_0).
  repeat constructor; simpl; intuition discriminate.
Defined.

(** *** Missing keys *)

Section LocErrors.
Context {K : Type} `{EqDecision K}.
Variable index : Row -> K.
Variable table : list Row.

Lemma filter_label_nil (l : K) :
  List.filter (fun r => bool_decide (index r = l)) table = []
  <-> ~ In l (map index table).
Proof.
  split.
  - intros Hf Hin. apply in_map_iff in Hin as (r & Hr & Hin).
    assert (Hr' : In r (List.filter (fun r => bool_decide (index r = l)) table)).
    { apply filter_In. split; [exact Hin|]. apply bool_decide_eq_true_2, Hr. }
    rewrite Hf in Hr'. destruct Hr'.
  - intros Hnin. apply filter_none. intros r Hr.
    apply bool_decide_eq_false_2. intros Heq. apply Hnin.
    rewrite <- Heq. apply in_map, Hr.
Qed.

Lemma loc_cases (labels : list K) :
  (exists rows, loc index table labels = Ok rows
                /\ List.Forall (fun l => In l (map index table)) labels)
  \/ (loc index table labels = Raise KeyError
      /\ exists l, In l labels /\ ~ In l (map index table)).
Proof.
  unfold loc. induction labels as [|l labels IH]; cbn [mapM Py.bind].
  - left. eexists; split; [reflexivity | constructor].
  - destruct (List.filter (fun r => bool_decide (index r = l)) table)
      as [|r rs] eqn:Hf.
    + right. split; [reflexivity|]. exists l. split; [left; reflexivity|].
      apply filter_label_nil, Hf.
    + assert (Hl : In l (map index table)).
      { destruct (in_dec (fun x y => decide (x = y)) l (map index table))
          as [Hin | Hnin]; [exact Hin|].
        apply filter_label_nil in Hnin. congruence. }
      cbn [Py.bind].
      destruct IH as [(rows & Hrows & Hall) | (Hraise & l' & Hl' & Hnin)].
      * left. destruct (mapM _ labels) as [found|e]; [|discriminate].
        cbn [Py.bind]. eexists; split; [reflexivity|].
        constructor; assumption.
      * right. destruct (mapM _ labels) as [found|e]; [discriminate|].
        cbn [Py.bind] in *. split; [exact Hraise|].
        exists l'. split; [right; exact Hl' | exact Hnin].
Qed.

Lemma loc_KeyError_iff (labels : list K) :
  (loc index table labels = Raise KeyError
   <-> exists l, In l labels /\ ~ In l (map index table))
  /\ (Py.is_ok (loc index table labels) = false
      <-> loc index table labels = Raise KeyError).
Proof.
  destruct (loc_cases labels) as [(rows & Hok & Hall) | (Hraise & Hex)].
  - rewrite Hok. split; split; try discriminate.
    intros (l & Hl & Hnin). rewrite List.Forall_forall in Hall.
    destruct (Hnin (Hall l Hl)).
  - rewrite Hraise. split; split; auto.
Qed.

End LocErrors.

(** X21: for equally long columns of asu ids and Miller indices,
    [to_refl_id] raises exactly when some requested (asu id, H, K, L) is
    not a key of the collection, and the error is then KeyError. *)
Theorem to_refl_id_KeyError_iff
    (C : ReciprocalASUCollection) (a : list Z) (H : list miller) :
  length a = length H ->
  (to_refl_id C a H = Raise KeyError
   <-> exists k, In k (combine a H)
                 /\ ~ In k (map composite_key (collection_table C)))
  /\ (is_ok (to_refl_id C a H) = false <-> to_refl_id C a H = Raise KeyError).
Proof.
  intros Hlen. unfold to_refl_id. rewrite Hlen, Nat.eqb_refl.
  destruct (loc_KeyError_iff composite_key (collection_table C) (combine a H))
    as (Hiff & Hok).
  destruct (loc composite_key (collection_table C) (combine a H)) as [rows|e];
    cbn [Py.bind is_ok] in *.
  - split; split; try discriminate.
    intros Hex. apply Hiff in Hex. discriminate.
  - split; split; auto.
    + intros Hr. apply Hiff. congruence.
    + intros Hex. apply Hiff in Hex. congruence.
    + intros _. destruct Hok as (Hok & _). specialize (Hok eq_refl). congruence.
Qed.

Lemma to_refl_id_KeyError_iff_witness :
  (to_refl_id {| reciprocal_asus := [example_asu_0];
                 collection_table := lookup_table example_asu_0 |}
     [0; 0] [(0, 0, 1); (5, 5, 5)] = Raise KeyError
   <-> exists k, In k (combine [0; 0] [(0, 0, 1); (5, 5, 5)])
                 /\ ~ In k (map composite_key (lookup_table example_asu_0)))
  /\ (is_ok (to_refl_id {| reciprocal_asus := [example_asu_0];
                           collection_table := lookup_table example_asu_0 |}
               [0; 0] [(0, 0, 1); (5, 5, 5)]) = false
      <-> to_refl_id {| reciprocal_asus := [example_asu_0];
                        collection_table := lookup_table example_asu_0 |}
            [0; 0] [(0, 0, 1); (5, 5, 5)] = Raise KeyError).
Proof.
  apply (to_refl_id_KeyError_iff
           {| reciprocal_asus := [example_asu_0];
              collection_table := lookup_table example_asu_0 |}
           [0; 0] [(0, 0, 1); (5, 5, 5)]).
  reflexivity.
Defined.

(** X22: on a collection built by [__init__] with n reflections,
    [to_asu_id_and_miller_index] raises exactly when some requested id is
    outside 0 <= id < n, and the error is then KeyError. *)
Theorem to_asu_id_and_miller_index_KeyError_iff
    (asus : list ReciprocalASU) (C : ReciprocalASUCollection)
    (refl_id : list Z) :
  init asus = Ok C ->
  (to_asu_id_and_miller_index C refl_id = Raise KeyError
   <-> exists r, In r refl_id
                 /\ ~ (0 <= r < Z.of_nat (length (collection_table C))))
  /\ (is_ok (to_asu_id_and_miller_index C refl_id) = false
      <-> to_asu_id_and_miller_index C refl_id = Raise KeyError).
Proof.
  intros HC.
  assert (Hids : map id (collection_table C)
                 = arange (length (collection_table C))).
  { destruct asus as [|asu rest]; [discriminate|].
    destruct (init_table (asu :: rest)) as (C' & HC' & _ & _ & Hids);
      [discriminate|].
    rewrite HC in HC'. injection HC' as <-. exact Hids. }
  unfold to_asu_id_and_miller_index.
  destruct (loc_KeyError_iff id (collection_table C) refl_id) as (Hiff & Hok).
  rewrite Hids in Hiff.
  assert (Hiff' : loc id (collection_table C) refl_id = Raise KeyError
    <-> exists r, In r refl_id
                  /\ ~ (0 <= r < Z.of_nat (length (collection_table C)))).
  { rewrite Hiff. split; intros (r & Hr & Hn); exists r; split; auto;
      intros Hin; apply Hn; apply arange_In; exact Hin. }
  destruct (loc id (collection_table C) refl_id) as [rows|e];
    cbn [Py.bind is_ok] in *.
  - split; split; try discriminate.
    intros Hex. apply Hiff' in Hex. discriminate.
  - split; split; auto.
    + intros Hr. apply Hiff'. congruence.
    + intros Hex. apply Hiff' in Hex. congruence.
    + intros _. destruct Hok as (Hok & _). specialize (Hok eq_refl). congruence.
Qed.

Lemma to_asu_id_and_miller_index_KeyError_iff_witness :
  (to_asu_id_and_miller_index
     {| reciprocal_asus := [example_asu_0];
        collection_table := map (set_asu_id 0) (lookup_table example_asu_0) |}
     [1; 7] = Raise KeyError
   <-> exists r, In r [1; 7]
         /\ ~ (0 <= r < Z.of_nat
                 (length (map (set_asu_id 0) (lookup_table example_asu_0)))))
  /\ (is_ok (to_asu_id_and_miller_index
               {| reciprocal_asus := [example_asu_0];
                  collection_table :=
                    map (set_asu_id 0) (lookup_table example_asu_0) |}
               [1; 7]) = false
      <-> to_asu_id_and_miller_index
            {| reciprocal_asus := [example_asu_0];
               collection_table :=
                 map (set_asu_id 0) (lookup_table example_asu_0) |}
            [1; 7] = Raise KeyError).
Proof.
  apply (to_asu_id_and_miller_index_KeyError_iff [example_asu_0]
           {| reciprocal_asus := [example_asu_0];
              collection_table :=
                map (set_asu_id 0) (lookup_table example_asu_0) |}
           [1; 7]).
  reflexivity.
Defined.

(** *** The per-reflection arrays *)

Lemma lookup_table_rows asu :
  List.Forall
    (fun r => In (hkl r) (Hall asu)
              /\ CENTRIC r = label_centrics asu (hkl r)
              /\ EPSILON r = compute_multiplicity asu (hkl r))
    (lookup_table asu).
Proof.
  apply List.Forall_forall. intros r Hr. unfold lookup_table in Hr.
  apply in_map_iff in Hr as ([i h] & <- & Hin). simpl.
  split; [|auto].
  rewrite <- (enumerate_from_snd (Hall asu) 0).
  change h with (snd (i, h)). apply in_map, Hin.
Qed.

Lemma add_asu_rows (done rest : list ReciprocalASU) asu
    (t : option (list Row)) (t' : list Row) :
  match t with
  | Some rows => List.Forall (row_of (done ++ asu :: rest)) rows
  | None => True
  end ->
  add_asu t (length done) asu = Some t' ->
  List.Forall (row_of (done ++ asu :: rest)) t'.
Proof.
  intros Ht Hadd.
  assert (Hnew : forall d,
    List.Forall (row_of (done ++ asu :: rest))
      (map (shift_id d) (map (set_asu_id (Z.of_nat (length done)))
                             (lookup_table asu)))).
  { intros d. apply List.Forall_forall. intros r Hr.
    apply in_map_iff in Hr as (r1 & <- & Hr1).
    apply in_map_iff in Hr1 as (r0 & <- & Hr0).
    pose proof (lookup_table_rows asu) as Hrows.
    rewrite List.Forall_forall in Hrows.
    destruct (Hrows r0 Hr0) as (Hh & Hc & He).
    exists asu. cbn. rewrite Nat2Z.id, nth_error_app2, Nat.sub_diag by lia.
    repeat split; auto; lia. }
  unfold add_asu in Hadd. destruct t as [t|].
  - injection Hadd as <-. apply List.Forall_app. split; [exact Ht | apply Hnew].
  - injection Hadd as <-.
    specialize (Hnew 0). rewrite map_map in Hnew.
    rewrite (map_ext _ (set_asu_id (Z.of_nat (length done)))) in Hnew;
      [exact Hnew|].
    intros [a h i c e]. unfold shift_id, set_asu_id. simpl. f_equal. lia.
Qed.

Lemma add_asus_rows (rest : list ReciprocalASU) :
  forall (done : list ReciprocalASU) (t : option (list Row)) (t' : list Row),
    match t with
    | Some rows => List.Forall (row_of (done ++ rest)) rows
    | None => True
    end ->
    add_asus t (length done) rest = Some t' ->
    List.Forall (row_of (done ++ rest)) t'.
Proof.
  induction rest as [|asu rest IH]; intros done t t' Ht Hadd.
  - cbn [add_asus] in Hadd. subst t. exact Ht.
  - cbn [add_asus] in Hadd.
    destruct (add_asu t (length done) asu) as [t1|] eqn:H1.
    2:{ unfold add_asu in H1. destruct t; discriminate. }
    pose proof (add_asu_rows done rest asu t t1 Ht H1) as Ht1.
    replace (done ++ asu :: rest) with ((done ++ [asu]) ++ rest) in *
      by (rewrite <- app_assoc; reflexivity).
    apply (IH (done ++ [asu]) (Some t1) t'); [exact Ht1|].
    rewrite length_app, Nat.add_comm. exact Hadd.
Qed.

(** X23: the [centric] and [multiplicity] arrays of a collection are
    indexed by reflection id: for every id r of the collection, entry r of
    each array is the label that the ASU of r (the one
    [to_asu_id_and_miller_index] reports) gives to the Miller index of
    r. *)
Theorem collection_arrays_indexed_by_refl_id
    (asus : list ReciprocalASU) (C : ReciprocalASUCollection) (r : Z) :
  init asus = Ok C ->
  0 <= r < Z.of_nat (length (collection_table C)) ->
  length (centric C) = length (collection_table C)
  /\ length (multiplicity C) = length (collection_table C)
  /\ exists a h asu,
       to_asu_id_and_miller_index C [r] = Ok ([a], [h])
       /\ 0 <= a
       /\ nth_error asus (Z.to_nat a) = Some asu
       /\ In h (Hall asu)
       /\ nth_error (centric C) (Z.to_nat r) = Some (label_centrics asu h)
       /\ nth_error (multiplicity C) (Z.to_nat r)
          = Some (compute_multiplicity asu h).
Proof.
  intros HC Hr. unfold centric, multiplicity. rewrite !length_map.
  split; [reflexivity|]. split; [reflexivity|].
  assert (Hids : map id (collection_table C)
                 = arange (length (collection_table C))).
  { destruct asus as [|asu rest]; [discriminate|].
    destruct (init_table (asu :: rest)) as (C' & HC' & _ & _ & Hids);
      [discriminate|].
    rewrite HC in HC'. injection HC' as <-. exact Hids. }
  assert (Hrows : List.Forall (row_of asus) (collection_table C)).
  { unfold init in HC.
    destruct (add_asus None 0 asus) as [t|] eqn:Ht; [|discriminate].
    injection HC as <-. cbn [collection_table].
    apply (add_asus_rows asus [] None t I Ht). }
  destruct (nth_error (collection_table C) (Z.to_nat r)) as [row|] eqn:Hrow;
    [|apply nth_error_None in Hrow; lia].
  assert (Hid : id row = r).
  { assert (H1 : nth_error (map id (collection_table C)) (Z.to_nat r)
                 = Some (id row)) by (rewrite nth_error_map, Hrow; reflexivity).
    rewrite Hids, arange_nth in H1 by lia. injection H1 as H1. lia. }
  assert (Hin : In row (collection_table C)) by (eapply nth_error_In; eauto).
  rewrite List.Forall_forall in Hrows.
  destruct (Hrows row Hin) as (asu & Ha & Hasu & Hh & Hc & He).
  exists (asu_id row), (hkl row), asu.
  split; [|split; [exact Ha | split; [exact Hasu | split; [exact Hh|]]]].
  - unfold to_asu_id_and_miller_index.
    replace [r] with (map id [row]) by (simpl; congruence).
    rewrite loc_rows; [reflexivity | rewrite Hids; apply arange_NoDup |].
    intros r' [<- | []]. exact Hin.
  - rewrite !nth_error_map, Hrow. simpl. split; congruence.
Qed.

Lemma collection_arrays_indexed_by_refl_id_witness :
  length (centric {| reciprocal_asus := [example_asu_0];
                     collection_table :=
                       map (set_asu_id 0) (lookup_table example_asu_0) |})
  = length (map (set_asu_id 0) (lookup_table example_asu_0))
  /\ length (multiplicity
               {| reciprocal_asus := [example_asu_0];
                  collection_table :=
                    map (set_asu_id 0) (lookup_table example_asu_0) |})
     = length (map (set_asu_id 0) (lookup_table example_asu_0))
  /\ exists a h asu,
       to_asu_id_and_miller_index
         {| reciprocal_asus := [example_asu_0];
            collection_table :=
              map (set_asu_id 0) (lookup_table example_asu_0) |} [2]
       = Ok ([a], [h])
       /\ 0 <= a
       /\ nth_error [example_asu_0] (Z.to_nat a) = Some asu
       /\ In h (Hall asu)
       /\ nth_error
            (centric {| reciprocal_asus := [example_asu_0];
                        collection_table :=
                          map (set_asu_id 0) (lookup_table example_asu_0) |})
            (Z.to_nat 2)
          = Some (label_centrics asu h)
       /\ nth_error
            (multiplicity
               {| reciprocal_asus := [example_asu_0];
                  collection_table :=
                    map (set_asu_id 0) (lookup_table example_asu_0) |})
            (Z.to_nat 2)
          = Some (compute_multiplicity asu h).
Proof.
  apply (collection_arrays_indexed_by_refl_id [example_asu_0]
           {| reciprocal_asus := [example_asu_0];
              collection_table :=
                map (set_asu_id 0) (lookup_table example_asu_0) |} 2);
    [reflexivity | simpl; lia].
Defined.

(** X26: looking up all ids of a collection in order,
    [to_asu_id_and_miller_index(np.arange(n))] as [get_results] does,
    returns the whole [asu_ids] and [hkls] columns. *)
Theorem to_asu_id_and_miller_index_all
    (asus : list ReciprocalASU) (C : ReciprocalASUCollection) :
  init asus = Ok C ->
  to_asu_id_and_miller_index C (arange (length (collection_table C)))
  = Ok (asu_ids C, hkls C)
  /\ length (asu_ids C) = length (collection_table C)
  /\ length (hkls C) = length (collection_table C).
Proof.
  intros HC.
  assert (Hids : map id (collection_table C)
                 = arange (length (collection_table C))).
  { destruct asus as [|asu rest]; [discriminate|].
    destruct (init_table (asu :: rest)) as (C' & HC' & _ & _ & Hids);
      [discriminate|].
    rewrite HC in HC'. injection HC' as <-. exact Hids. }
  unfold asu_ids, hkls. rewrite !length_map. split; [|auto].
  unfold to_asu_id_and_miller_index. rewrite <- Hids.
  rewrite loc_rows; [reflexivity | rewrite Hids; apply arange_NoDup | auto].
Qed.

Lemma to_asu_id_and_miller_index_all_witness :
  to_asu_id_and_miller_index
    {| reciprocal_asus := [example_asu_0];
       collection_table := map (set_asu_id 0) (lookup_table example_asu_0) |}
    (arange (length (map (set_asu_id 0) (lookup_table example_asu_0))))
  = Ok (asu_ids {| reciprocal_asus := [example_asu_0];
                   collection_table :=
                     map (set_asu_id 0) (lookup_table example_asu_0) |},
        hkls {| reciprocal_asus := [example_asu_0];
                collection_table :=
                  map (set_asu_id 0) (lookup_table example_asu_0) |})
  /\ length (asu_ids {| reciprocal_asus := [example_asu_0];
                        collection_table :=
                          map (set_asu_id 0) (lookup_table example_asu_0) |})
     = length (map (set_asu_id 0) (lookup_table example_asu_0))
  /\ length (hkls {| reciprocal_asus := [example_asu_0];
                     collection_table :=
                       map (set_asu_id 0) (lookup_table example_asu_0) |})
     = length (map (set_asu_id 0) (lookup_table example_asu_0)).
Proof.
  apply (to_asu_id_and_miller_index_all [example_asu_0]
           {| reciprocal_asus := [example_asu_0];
              collection_table :=
                map (set_asu_id 0) (lookup_table example_asu_0) |}).
  reflexivity.
Defined.

End ASUFacts.

(** ** The Wilson prior of a data manager *)

Section ManagerPriorFacts.
Import Py ManagerPrior.

(** X24: [DataManager.get_wilson_prior] never returns a prior.  With
    b=None it passes three arguments to [WilsonPrior], whose [__init__]
    takes two: TypeError.  With a float b it reads
    [self.asu_collection.dHKL], which a [ReciprocalASUCollection] does not
    have: AttributeError.  With any other b it raises ValueError. *)
Theorem get_wilson_prior_never_returns
    (C : ASU.ReciprocalASUCollection) (b : b_arg) :
  get_wilson_prior C b
  = Raise (match b with
           | BNone => TypeError
           | BFloat _ => AttributeError "dHKL"
           | BOther => ValueError []
           end).
Proof. destruct b; reflexivity. Qed.

End ManagerPriorFacts.
